(** * The pseudonymisation engine of fileProcessor.js

    A shallow embedding of [getPseudonym], [aggressiveMergeTokens],
    [escapeRegexChars], [buildFuzzyRegex] and [anonymizeText], with the
    JavaScript built-ins they call (string replacement by a character class,
    [trim], the string iterator, the regular expressions the builder emits,
    global [replace]) written out as functions on lists of code units;
    then [processFile] and the file list of renderer.js. *)

From Stdlib Require Import String Ascii NArith ZArith List Lia DecimalN
  DecimalPos.
From stdpp Require Import base option list countable gmap.
Import ListNotations.

(** ** JavaScript strings

    A JavaScript string is a sequence of 16-bit code units; the regular
    expressions of the source carry no [u] flag, so every built-in used here
    works code unit by code unit. *)

Abbreviation jsstring := (list N).

(** [u "abc"] is the JavaScript literal ["abc"]. *)
Definition u (s : string) : jsstring := map N_of_ascii (list_ascii_of_string s).
Arguments u s%_string.

(** JavaScript truthiness of a string: the empty string is the only falsy one. *)
Definition truthy (s : jsstring) : bool :=
  match s with [] => false | _ :: _ => true end.

Module Char.

Definition in_range (lo hi c : N) : bool := ((lo <=? c) && (c <=? hi))%N.

Definition is_digit (c : N) : bool := in_range 48 57 c.
Definition is_upper (c : N) : bool := in_range 65 90 c.
Definition is_lower (c : N) : bool := in_range 97 122 c.

(** The class [[a-zA-Z0-9]]. *)
Definition is_alnum (c : N) : bool := is_lower c || is_upper c || is_digit c.

(** The class [\w], that is [[A-Za-z0-9_]]. *)
Definition is_word (c : N) : bool := is_alnum c || (c =? 95)%N.

(** The class [\s]: WhiteSpace and LineTerminator of ECMAScript. *)
Definition is_space (c : N) : bool :=
  in_range 9 13 c || (c =? 32)%N || (c =? 160)%N || (c =? 5760)%N
  || in_range 8192 8202 c || (c =? 8232)%N || (c =? 8233)%N
  || (c =? 8239)%N || (c =? 8287)%N || (c =? 12288)%N || (c =? 65279)%N.

(** The class [[\w\s.,'-]] whose complement the merger deletes. *)
Definition is_retained (c : N) : bool :=
  is_word c || is_space c
  || (c =? 46)%N || (c =? 44)%N || (c =? 39)%N || (c =? 45)%N.

(** The class [[-/\\^$*+?.()|[\]{}]] of [escapeRegexChars]. *)
Definition is_meta (c : N) : bool :=
  (c =? 45)%N || (c =? 47)%N || (c =? 92)%N || (c =? 94)%N || (c =? 36)%N
  || (c =? 42)%N || (c =? 43)%N || (c =? 63)%N || (c =? 46)%N
  || (c =? 40)%N || (c =? 41)%N || (c =? 124)%N || (c =? 91)%N
  || (c =? 93)%N || (c =? 123)%N || (c =? 125)%N.

Definition is_high_surrogate (c : N) : bool := in_range 55296 56319 c.
Definition is_low_surrogate (c : N) : bool := in_range 56320 57343 c.

(** Canonicalize of a code unit under the [i] flag, on ASCII: a lower-case
    letter becomes its upper-case form.  Outside ASCII the engine never
    canonicalizes a code unit to an ASCII one, so comparing against an
    ASCII pattern character is exact for every input code unit. *)
Definition canonicalize (c : N) : N := if is_lower c then (c - 32)%N else c.

End Char.

(** [s.replace(/[^C]/g, '')] for a character class [C]: keep the members. *)
Definition keep (cls : N -> bool) (s : jsstring) : jsstring := List.filter cls s.

(** [s.replace(/\s+/g, '')]: every run of white space is deleted. *)
Definition delete_spaces (s : jsstring) : jsstring :=
  List.filter (fun c => negb (Char.is_space c)) s.

Fixpoint trim_start (s : jsstring) : jsstring :=
  match s with
  | c :: s' => if Char.is_space c then trim_start s' else s
  | [] => []
  end.

(** [String.prototype.trim]. *)
Definition trim (s : jsstring) : jsstring :=
  rev (trim_start (rev (trim_start s))).

(** [entity.replace(/^(B-|I-)/, '')]: one leading [B-] or [I-] is removed. *)
Definition strip_prefix (entity : jsstring) : jsstring :=
  match entity with
  | c :: 45%N :: rest =>
      if ((c =? 66) || (c =? 73))%N then rest else entity
  | _ => entity
  end.

(** ** aggressiveMergeTokens *)

(** One element of the classifier's output; the code reads [entity] and
    [word] only. *)
Record prediction := Prediction { entity : jsstring; word : jsstring }.

(** An object [{ type, text }] of the merged list. *)
Record span := Span { type : jsstring; text : jsstring }.

(** [pred.word.replace(/\s+/g, '').replace(/[^\w\s.,'-]/g, '')], trimmed. *)
Definition normalize (w : jsstring) : jsstring :=
  trim (keep Char.is_retained (delete_spaces w)).

(** The [for] loop of [aggressiveMergeTokens], with its two variables
    [merged] and [current] as arguments. *)
Fixpoint merge_loop (predictions : list prediction)
    (merged : list span) (current : option span) : list span * option span :=
  match predictions with
  | [] => (merged, current)
  | pred :: rest =>
      let ty := strip_prefix (entity pred) in
      let w := normalize (word pred) in
      if negb (truthy w) then merge_loop rest merged current
      else
        match current with
        | None => merge_loop rest merged (Some (Span ty w))
        | Some cur =>
            if decide (type cur = ty)
            then merge_loop rest merged (Some (Span (type cur) (text cur ++ w)))
            else merge_loop rest (merged ++ [cur]) (Some (Span ty w))
        end
  end.

(** [predictions] is [None] for [null] or [undefined]. *)
Definition aggressiveMergeTokens (predictions : option (list prediction))
  : list span :=
  match predictions with
  | None | Some [] => []
  | Some ps =>
      let '(merged, current) := merge_loop ps [] None in
      match current with
      | Some cur => merged ++ [cur]
      | None => merged
      end
  end.

(** ** getPseudonym

    [pseudonymCounters] and [pseudonymMapping] are objects used as maps from
    strings; the model is the finite map of their own properties (the names
    that [Object.prototype] defines, such as [constructor], are not among the
    keys considered).  A counter is a JavaScript number that only ever holds
    a positive integer, here an [N].  Module [Js] further down has the same
    function on the objects themselves, with the inherited properties and
    the counter as a double. *)

Record registry := Registry {
  pseudonymCounters : gmap jsstring N;
  pseudonymMapping : gmap jsstring jsstring
}.

(** The state at module load: both objects are [{}]. *)
Definition empty_registry : registry := Registry ∅ ∅.

Fixpoint uint_units (d : Decimal.uint) : jsstring :=
  match d with
  | Decimal.Nil => []
  | Decimal.D0 d => 48%N :: uint_units d
  | Decimal.D1 d => 49%N :: uint_units d
  | Decimal.D2 d => 50%N :: uint_units d
  | Decimal.D3 d => 51%N :: uint_units d
  | Decimal.D4 d => 52%N :: uint_units d
  | Decimal.D5 d => 53%N :: uint_units d
  | Decimal.D6 d => 54%N :: uint_units d
  | Decimal.D7 d => 55%N :: uint_units d
  | Decimal.D8 d => 56%N :: uint_units d
  | Decimal.D9 d => 57%N :: uint_units d
  end.

(** The decimal digits a template literal writes for an integer. *)
Definition Number_toString (n : N) : jsstring := uint_units (N.to_uint n).

(** [`${entityType}_${n}`]. *)
Definition pseudonym_of (entityType : jsstring) (n : N) : jsstring :=
  entityType ++ 95%N :: Number_toString n.

(** The value [pseudonymCounters[entityType]] holds when the template
    literal reads it: a missing or zero counter has just been set to 1. *)
Definition counter_value (counters : gmap jsstring N) (entityType : jsstring)
  : N :=
  match counters !! entityType with
  | Some n => if (n =? 0)%N then 1%N else n
  | None => 1%N
  end.

(** Lines 38 to 43: a pseudonym is made from the counter of the type, the
    counter is incremented and the pseudonym is stored under the text. *)
Definition allocate (entityText entityType : jsstring) (reg : registry)
  : jsstring * registry :=
  let n := counter_value (pseudonymCounters reg) entityType in
  let pseudonym := pseudonym_of entityType n in
  (pseudonym,
   Registry (<[entityType := (n + 1)%N]> (pseudonymCounters reg))
            (<[entityText := pseudonym]> (pseudonymMapping reg))).

(** [getPseudonym]: the result and the registry it leaves. *)
Definition getPseudonym (entityText entityType : jsstring) (reg : registry)
  : jsstring * registry :=
  match pseudonymMapping reg !! entityText with
  | Some p => if truthy p then (p, reg) else allocate entityText entityType reg
  | None => allocate entityText entityType reg
  end.

(** A session: [getPseudonym] called on each (text, type) pair in turn. *)
Definition resolve_all (calls : list (jsstring * jsstring)) (reg : registry)
  : registry :=
  fold_left (fun r call => snd (getPseudonym (fst call) (snd call) r)) calls reg.

(** ** escapeRegexChars and the pattern text *)

(** [str.replace(/[-/\\^$*+?.()|[\]{}]/g, '\\$&')]. *)
Fixpoint escapeRegexChars (str : jsstring) : jsstring :=
  match str with
  | [] => []
  | c :: rest =>
      if Char.is_meta c then 92%N :: c :: escapeRegexChars rest
      else c :: escapeRegexChars rest
  end.

(** The string iterator of [for (const char of noPunc)]: it yields code
    points, a surrogate pair as one two-unit string. *)
Fixpoint string_iter (s : jsstring) : list jsstring :=
  match s with
  | [] => []
  | c :: rest =>
      match rest with
      | d :: rest' =>
          if Char.is_high_surrogate c && Char.is_low_surrogate d
          then [c; d] :: string_iter rest'
          else [c] :: string_iter rest
      | [] => [[c]]
      end
  end.

(** The text [[^a-zA-Z0-9]*]. *)
Definition class_star : jsstring :=
  Eval cbv in u "[^a-zA-Z0-9]*".

(** [pattern += `${char}[^a-zA-Z0-9]*`] over the characters of [noPunc]. *)
Definition build_pattern (noPunc : jsstring) : jsstring :=
  fold_left (fun pattern char => pattern ++ char ++ class_star)
            (string_iter noPunc) [].

(** ** Regular expressions of the builder

    The patterns [buildFuzzyRegex] writes are sequences of two kinds of
    term: a pattern character (plain, or a backslash-escaped meta-character)
    and the negated class [[^a-zA-Z0-9]] under a greedy star. *)

Inductive node :=
  | Lit (c : N)
  | StarNotAlnum.

Abbreviation regex := (list node).

(** [new RegExp(pattern, 'ig')] for the pattern language above; [pending]
    is what is left to read of an opened [[^a-zA-Z0-9]*].  [None] stands for
    the constructor throwing; a pattern outside the language is not given a
    meaning here and is mapped to [None] as well. *)
Fixpoint parse_pattern (pending pattern : jsstring) : option regex :=
  match pattern with
  | [] => match pending with [] => Some [] | _ :: _ => None end
  | c :: rest =>
      match pending with
      | e :: pending' =>
          if (c =? e)%N then
            match pending' with
            | [] => cons StarNotAlnum <$> parse_pattern [] rest
            | _ :: _ => parse_pattern pending' rest
            end
          else None
      | [] =>
          if (c =? 91)%N then parse_pattern (tail class_star) rest
          else if (c =? 92)%N then
            match rest with
            | d :: rest' =>
                if Char.is_meta d then cons (Lit d) <$> parse_pattern [] rest'
                else None
            | [] => None
            end
          else if Char.is_meta c then None
          else cons (Lit c) <$> parse_pattern [] rest
      end
  end.

Definition RegExp_ig (pattern : jsstring) : option regex :=
  parse_pattern [] pattern.

(** The backtracking matcher at one start position: the number of code
    units the leftmost-priority match consumes.  The star is greedy: it
    first tries to take one more code unit, and gives it back when the rest
    of the pattern fails. *)
Fixpoint match_here (r : regex) : jsstring -> option nat :=
  match r with
  | [] => fun _ => Some 0
  | Lit c :: r' => fun s =>
      match s with
      | d :: s' =>
          if (Char.canonicalize c =? Char.canonicalize d)%N
          then S <$> match_here r' s'
          else None
      | [] => None
      end
  | StarNotAlnum :: r' =>
      fix star (s : jsstring) : option nat :=
        match s with
        | d :: s' =>
            if negb (Char.is_alnum d) then
              match star s' with
              | Some n => Some (S n)
              | None => match_here r' s
              end
            else match_here r' s
        | [] => match_here r' []
        end
  end.

(** GetSubstitution for a regular expression without capture groups:
    [$$], [$&], [$`] and [$'] are expanded, any other [$] is literal. *)
Fixpoint expand (template matched before after : jsstring) : jsstring :=
  match template with
  | [] => []
  | c :: rest =>
      if (c =? 36)%N then
        match rest with
        | d :: rest' =>
            if (d =? 36)%N then 36%N :: expand rest' matched before after
            else if (d =? 38)%N then matched ++ expand rest' matched before after
            else if (d =? 96)%N then before ++ expand rest' matched before after
            else if (d =? 39)%N then after ++ expand rest' matched before after
            else c :: expand rest matched before after
        | [] => [c]
        end
      else c :: expand rest matched before after
  end.

(** The loop of [String.prototype.replace] with a global regular
    expression.  [before] is the part of the subject already passed, [skip]
    the number of code units still inside the last match. *)
Fixpoint replace_loop (r : regex) (replacement before : jsstring)
    (skip : nat) (s : jsstring) : jsstring :=
  match s with
  | [] =>
      match match_here r [] with
      | Some _ => expand replacement [] before []
      | None => []
      end
  | d :: s' =>
      match skip with
      | S k => replace_loop r replacement (before ++ [d]) k s'
      | O =>
          match match_here r s with
          | Some (S k) =>
              expand replacement (take (S k) s) before (drop (S k) s)
              ++ replace_loop r replacement (before ++ [d]) k s'
          | Some O =>
              expand replacement [] before s
              ++ d :: replace_loop r replacement (before ++ [d]) 0 s'
          | None => d :: replace_loop r replacement (before ++ [d]) 0 s'
          end
      end
  end.

(** [str.replace(fuzzyRegex, pseudonym)]. *)
Definition replace (r : regex) (replacement str : jsstring) : jsstring :=
  replace_loop r replacement [] 0 str.

(** ** buildFuzzyRegex and anonymizeText *)

Section Pipeline.

(** The loaded classifier, [ner], and the regular-expression constructor
    of the engine ([None] when [new RegExp] throws). *)
Variable ner : jsstring -> option (list prediction).
Variable RegExp : jsstring -> option regex.

Definition buildFuzzyRegex (mergedString : jsstring) : option regex :=
  let noPunc := keep Char.is_word mergedString in
  if negb (truthy noPunc) then None
  else
    let noPunc := escapeRegexChars noPunc in
    let pattern := build_pattern noPunc in
    if negb (truthy pattern) then None
    else RegExp pattern.

(** The body of the [for (const obj of merged)] loop on the pair
    ([processedText], registry). *)
Definition anonymize_body (st : jsstring * registry) (obj : span)
  : jsstring * registry :=
  let '(processedText, reg) := st in
  let entityType := type obj in
  let mergedString := text obj in
  if negb (truthy mergedString) then st
  else
    let '(pseudonym, reg') := getPseudonym mergedString entityType reg in
    match buildFuzzyRegex mergedString with
    | None => (processedText, reg')
    | Some fuzzyRegex => (replace fuzzyRegex pseudonym processedText, reg')
    end.

Definition anonymize_loop (merged : list span) (st : jsstring * registry)
  : jsstring * registry :=
  fold_left anonymize_body merged st.

(** [anonymizeText]: the text returned and the registry left behind. *)
Definition anonymizeText (text : jsstring) (reg : registry)
  : jsstring * registry :=
  let processedText := text in
  let predictions := ner processedText in
  let merged := aggressiveMergeTokens predictions in
  anonymize_loop merged (processedText, reg).

End Pipeline.

(** ** Auxiliary definitions for the statements *)

(** What [if (current) merged.push(current)] appends. *)
Definition flush (current : option span) : list span :=
  match current with Some cur => [cur] | None => [] end.

(** The spans the loop of [aggressiveMergeTokens] has still to emit when it
    stands before [predictions] with accumulator [current]: the same case
    analysis as [merge_loop], producing the output front to back. *)
Fixpoint spans_from (current : option span) (predictions : list prediction)
  : list span :=
  match predictions with
  | [] => flush current
  | pred :: rest =>
      let ty := strip_prefix (entity pred) in
      let w := normalize (word pred) in
      if negb (truthy w) then spans_from current rest
      else
        match current with
        | None => spans_from (Some (Span ty w)) rest
        | Some cur =>
            if decide (type cur = ty)
            then spans_from (Some (Span (type cur) (text cur ++ w))) rest
            else cur :: spans_from (Some (Span ty w)) rest
        end
  end.

(** The tokens the merger does not skip. *)
Definition kept_tokens (predictions : list prediction) : list prediction :=
  List.filter (fun p => truthy (normalize (word p))) predictions.

(** A span and the run of consecutive kept tokens it was merged from: the
    first token of the run opened the span, every token of the run has the
    span's type, and the span's text is their normalized words in order. *)
Definition merged_from (sp : span) (run : list prediction) : Prop :=
  run <> []
  /\ Forall (fun p => strip_prefix (entity p) = type sp) run
  /\ text sp = concat (map (fun p => normalize (word p)) run).

(** A prediction written as in the examples: word, then label. *)
Definition tok (w e : string) : prediction := Prediction (u e) (u w).

(** The stream of the merge continuity example. *)
Definition continuity_stream : list prediction :=
  [tok "John" "B-PER"; tok " Smith" "I-PER"; tok " works" "O";
   tok "London" "B-LOC"].

(** The number of calls of a session that were the first sight of their
    text and were made under type [ty]; [seen] holds the texts resolved
    before the session. *)
Fixpoint first_sightings (seen : list jsstring)
    (calls : list (jsstring * jsstring)) (ty : jsstring) : N :=
  match calls with
  | [] => 0%N
  | call :: rest =>
      ((if decide ((fst call ∉ seen) /\ snd call = ty) then 1 else 0)
       + first_sightings (fst call :: seen) rest ty)%N
  end.

(** The registries a program run can be in: [getPseudonym] is the only
    writer of the two objects. *)
Definition reachable (reg : registry) : Prop :=
  exists calls, reg = resolve_all calls empty_registry.

(** The state of the registry after a session, for one type [ty]: the
    texts stored are the texts seen, and the counter of [ty] stands one
    above the number [n] of pseudonyms given out under [ty]. *)
Definition session_state (seen : list jsstring) (n : N) (ty : jsstring)
    (reg : registry) : Prop :=
  (forall x, x ∉ seen -> pseudonymMapping reg !! x = None)
  /\ (forall x, x ∈ seen ->
        exists p, pseudonymMapping reg !! x = Some p /\ truthy p = true)
  /\ counter_value (pseudonymCounters reg) ty = (n + 1)%N.

(** The regular expression of a stripped text: each character, then the
    separator class under a star. *)
Definition fuzzy_nodes (noPunc : jsstring) : regex :=
  flat_map (fun c => [Lit c; StarNotAlnum]) noPunc.

(** The end-to-end scenario: the text, the classifier's output for it with
    the entity tokens only (the form in which HOW_IT_WORKS.md feeds the
    merger), and the same output with the [O] tokens left in. *)
Definition scenario_text : jsstring :=
  u "John Smith lives at 123 Main St. Contact John Smith at 555-1234.".

Definition scenario_predictions : list prediction :=
  [tok "John" "B-PERSON"; tok " Smith" "I-PERSON";
   tok " 123" "B-LOCATION"; tok " Main" "I-LOCATION"; tok " St" "I-LOCATION";
   tok " John" "B-PERSON"; tok " Smith" "I-PERSON";
   tok " 555" "B-PHONE"; tok "-1234" "I-PHONE"].

Definition scenario_predictions_with_outside : list prediction :=
  [tok "John" "B-PERSON"; tok " Smith" "I-PERSON";
   tok " lives" "O"; tok " at" "O";
   tok " 123" "B-LOCATION"; tok " Main" "I-LOCATION"; tok " St" "I-LOCATION";
   tok "." "O"; tok " Contact" "O";
   tok " John" "B-PERSON"; tok " Smith" "I-PERSON";
   tok " at" "O";
   tok " 555" "B-PHONE"; tok "-1234" "I-PHONE"; tok "." "O"].

(** [anonymizeText] on the scenario, from the registry at module load. *)
Definition scenario_run (predictions : list prediction) : jsstring * registry :=
  anonymizeText (fun _ => Some predictions) RegExp_ig scenario_text
    empty_registry.

(** The separators at the head of a string, and what follows them. *)
Fixpoint separators (s : jsstring) : jsstring :=
  match s with
  | d :: s' => if negb (Char.is_alnum d) then d :: separators s' else []
  | [] => []
  end.

Fixpoint skip_separators (s : jsstring) : jsstring :=
  match s with
  | d :: s' => if negb (Char.is_alnum d) then skip_separators s' else s
  | [] => []
  end.

(** No pattern character of [r] stands for the code unit [c]. *)
Definition avoids (c : N) (r : regex) : Prop :=
  Forall (fun nd => match nd with
                    | Lit l => Char.canonicalize l <> Char.canonicalize c
                    | StarNotAlnum => True
                    end) r.

(** ** FileProcessor: pattern of a file, and the static methods

    [path.extname], [path.basename] and [String.prototype.toLowerCase] are
    taken as given, and so are the readers of the four document formats
    ([None] when a reader throws, which rejects the promise of
    [processFile]).  A workbook is the list of its worksheets, a worksheet
    the list of its rows 1 to [rowCount], a row the list of the values of
    its cells 1 to [cellCount].  Writing the output is taken to succeed
    here; [Js.processFile] further down has the failures of the writers and
    of [anonymizeText] as well. *)

(** The array [supportedTypes] of [validateFileType]. *)
Definition supportedTypes : list jsstring :=
  [u ".doc"; u ".docx"; u ".xls"; u ".xlsx"; u ".csv"; u ".pdf"; u ".txt"].

(** [const useLLM = true]. *)
Definition useLLM : bool := true.

(** A cell value: a string, or a value of another type ([typeof] is not
    ['string']), kept as an opaque tag. *)
Inductive cell_value :=
  | CellString (s : jsstring)
  | CellOther (tag : nat).

Abbreviation row := (list cell_value).
Abbreviation worksheet := (list row).
Abbreviation workbook := (list worksheet).

(** What [processFile] hands to the writer of the output file. *)
Inductive written :=
  | WriteText (newContent : jsstring)
  | WriteWorkbook (wb : workbook)
  | WriteDocx (paragraph : jsstring)
  | WritePdf (drawn : jsstring)
  | CopyFile.

(** The promise of [processFile] settles: resolved with what was written,
    or rejected. *)
Inductive settled :=
  | Resolved (w : written)
  | Rejected.

(** A loop that updates the elements of a list in place while threading a
    state through them in order. *)
Fixpoint for_each {A S : Type} (f : A -> S -> A * S) (l : list A) (s : S)
  : list A * S :=
  match l with
  | [] => ([], s)
  | a :: l' =>
      let '(b, s1) := f a s in
      let '(bs, s2) := for_each f l' s1 in
      (b :: bs, s2)
  end.

Section FileProcessor.

Variable extname : jsstring -> jsstring.
Variable basename : jsstring -> jsstring -> jsstring.
Variable toLowerCase : jsstring -> jsstring.
Variable readFileSync : jsstring -> option jsstring.
Variable readWorkbook : jsstring -> option workbook.
Variable extractRawText : jsstring -> option jsstring.
Variable pdfParse : jsstring -> option jsstring.
Variable ner : jsstring -> option (list prediction).
Variable RegExp : jsstring -> option regex.

(** [cell.value = await anonymizeText(cell.value)] for a string cell. *)
Definition anonymizeCell (value : cell_value) (reg : registry)
  : cell_value * registry :=
  match value with
  | CellString s =>
      let '(t, reg') := anonymizeText ner RegExp s reg in (CellString t, reg')
  | CellOther tag => (CellOther tag, reg)
  end.

(** The three nested loops of the [.xlsx] branch. *)
Definition anonymizeWorkbook (wb : workbook) (reg : registry)
  : workbook * registry :=
  for_each (for_each (for_each anonymizeCell)) wb reg.

(** [processFile]: how the promise settles, and the registry left. *)
Definition processFile (filePath : jsstring) (reg : registry)
  : settled * registry :=
  let ext := toLowerCase (extname filePath) in
  if bool_decide (ext = u ".txt" \/ ext = u ".csv") then
    match readFileSync filePath with
    | None => (Rejected, reg)
    | Some content =>
        if useLLM then
          let '(anonymizedText, reg') := anonymizeText ner RegExp content reg in
          (Resolved (WriteText (u "Anonymized" ++ [10; 10]%N ++ anonymizedText)),
           reg')
        else
          (Resolved (WriteText (u "Anonymized" ++ [10; 10]%N ++ content)), reg)
    end
  else if bool_decide (ext = u ".xlsx") then
    match readWorkbook filePath with
    | None => (Rejected, reg)
    | Some wb =>
        let '(wb', reg') := anonymizeWorkbook wb reg in
        (Resolved (WriteWorkbook wb'), reg')
    end
  else if bool_decide (ext = u ".docx") then
    match extractRawText filePath with
    | None => (Rejected, reg)
    | Some docxText =>
        if useLLM then
          let '(anonymizedDocxText, reg') :=
            anonymizeText ner RegExp docxText reg in
          (Resolved (WriteDocx anonymizedDocxText), reg')
        else (Resolved (WriteDocx docxText), reg)
    end
  else if bool_decide (ext = u ".pdf") then
    match pdfParse filePath with
    | None => (Rejected, reg)
    | Some pdfText =>
        if useLLM then
          let '(anonymizedPdfText, reg') :=
            anonymizeText ner RegExp pdfText reg in
          (Resolved (WritePdf anonymizedPdfText), reg')
        else (Resolved (WritePdf pdfText), reg)
    end
  else (Resolved CopyFile, reg).

Definition generateOutputFileName (originalName : jsstring) : jsstring :=
  let ext := extname originalName in
  let baseName := basename originalName ext in
  baseName ++ u "-anon" ++ ext.

Definition validateFileType (filePath : jsstring) : bool :=
  let ext := toLowerCase (extname filePath) in
  bool_decide (ext ∈ supportedTypes).

End FileProcessor.

(** ** renderer.js: the file list, the daily limit and [simpleHash] *)

(** An element of [selectedFiles]. *)
Record fileObj := FileObj { path : jsstring; name : jsstring }.

(** The literal array of [addFile]. *)
Definition addFileTypes : list jsstring :=
  [u ".doc"; u ".docx"; u ".xls"; u ".xlsx"; u ".csv"; u ".pdf"; u ".txt"].

(** [addFile]: the new value of [selectedFiles] (the status line shown for
    an unsupported type is not part of the model). *)
Definition addFile (extname toLowerCase : jsstring -> jsstring)
    (file : fileObj) (selectedFiles : list fileObj) : list fileObj :=
  let ext := toLowerCase (extname (path file)) in
  if bool_decide (ext ∈ addFileTypes) then
    if existsb (fun f => bool_decide (path f = path file)) selectedFiles
    then selectedFiles
    else selectedFiles ++ [file]
  else selectedFiles.

(** [userState]; [dailyDate] is [None] for [null]. *)
Record userState := UserState {
  deviceID : option jsstring;
  isPro : bool;
  dailyCount : N;
  dailyDate : option jsstring
}.

(** [checkDailyReset], with the value of [getLocalDateString()]. *)
Definition checkDailyReset (today : jsstring) (st : userState) : userState :=
  if bool_decide (dailyDate st = Some today) then st
  else UserState (deviceID st) (isPro st) 0 (Some today).

(** The [for] loop of [processFiles]: the files handed to [process-file],
    in order, and the user state left.  No other handler changes
    [userState] while the loop awaits a file. *)
Fixpoint processFiles_loop (files : list fileObj) (st : userState)
  : list fileObj * userState :=
  match files with
  | [] => ([], st)
  | file :: rest =>
      if negb (isPro st) then
        let st1 := UserState (deviceID st) (isPro st) (dailyCount st + 1)
                     (dailyDate st) in
        if (100 <? dailyCount st1)%N then ([], st1)
        else
          let '(sent, st2) := processFiles_loop rest st1 in (file :: sent, st2)
      else
        let '(sent, st2) := processFiles_loop rest st in (file :: sent, st2)
  end.

(** [processFiles]: the files handed to [process-file] and the user state
    left. *)
Definition processFiles (today : jsstring) (selectedFiles : list fileObj)
    (st : userState) : list fileObj * userState :=
  match selectedFiles with
  | [] => ([], st)
  | _ :: _ =>
      if negb (isPro st) then
        let st1 := checkDailyReset today st in
        if (100 <=? dailyCount st1)%N then ([], st1)
        else processFiles_loop selectedFiles st1
      else processFiles_loop selectedFiles st
  end.

(** ToInt32 of an integer. *)
Definition ToInt32 (z : Z) : Z :=
  ((z + 2147483648) mod 4294967296 - 2147483648)%Z.

Fixpoint hex_units (d : Hexadecimal.uint) : jsstring :=
  match d with
  | Hexadecimal.Nil => []
  | Hexadecimal.D0 d => 48%N :: hex_units d
  | Hexadecimal.D1 d => 49%N :: hex_units d
  | Hexadecimal.D2 d => 50%N :: hex_units d
  | Hexadecimal.D3 d => 51%N :: hex_units d
  | Hexadecimal.D4 d => 52%N :: hex_units d
  | Hexadecimal.D5 d => 53%N :: hex_units d
  | Hexadecimal.D6 d => 54%N :: hex_units d
  | Hexadecimal.D7 d => 55%N :: hex_units d
  | Hexadecimal.D8 d => 56%N :: hex_units d
  | Hexadecimal.D9 d => 57%N :: hex_units d
  | Hexadecimal.Da d => 97%N :: hex_units d
  | Hexadecimal.Db d => 98%N :: hex_units d
  | Hexadecimal.Dc d => 99%N :: hex_units d
  | Hexadecimal.Dd d => 100%N :: hex_units d
  | Hexadecimal.De d => 101%N :: hex_units d
  | Hexadecimal.Df d => 102%N :: hex_units d
  end.

(** [n.toString(16)] for an integer. *)
Definition toString16 (z : Z) : jsstring :=
  if (z <? 0)%Z then 45%N :: hex_units (N.to_hex_uint (Z.to_N (- z)))
  else hex_units (N.to_hex_uint (Z.to_N z)).

(** The body of the loop of [simpleHash]:
    [hash = (hash << 5) - hash + str.charCodeAt(i); hash |= 0]. *)
Definition simpleHash_step (hash : Z) (c : N) : Z :=
  ToInt32 (ToInt32 (ToInt32 hash * 32) - hash + Z.of_N c).

Definition simpleHash (str : jsstring) : jsstring :=
  toString16 (fold_left simpleHash_step str 0%Z).

(** The polynomial with multiplier 31 over the code units. *)
Definition polynomial31 (str : jsstring) : Z :=
  fold_left (fun h c => (31 * h + Z.of_N c)%Z) str 0%Z.

(** ** Variants of a text

    [spells parts w]: the characters of [parts] are those of [w] up to
    letter case, each followed by a run of separators. *)
Definition spells (parts : list (N * jsstring)) (w : jsstring) : Prop :=
  Forall2 (fun part c =>
             Char.canonicalize c = Char.canonicalize (fst part)
             /\ Forall (fun d => Char.is_alnum d = false) (snd part))
          parts w.

(** The text a list of parts writes. *)
Definition written_out (parts : list (N * jsstring)) : jsstring :=
  flat_map (fun part => fst part :: snd part) parts.

(** The calls of [getPseudonym] that [anonymizeText] makes for a merged
    list. *)
Definition calls_of (merged : list span) : list (jsstring * jsstring) :=
  map (fun sp => (text sp, type sp)) merged.

(** Consecutive spans have different types. *)
Fixpoint types_alternate (spans : list span) : Prop :=
  match spans with
  | a :: (b :: _) as rest => type a <> type b /\ types_alternate rest
  | _ => True
  end.

(** Every stored pseudonym is [ty_n] for a type [ty] and a number [n] the
    counter of [ty] has passed. *)
Definition well_numbered (reg : registry) : Prop :=
  forall x p,
    pseudonymMapping reg !! x = Some p ->
    exists ty n,
      p = pseudonym_of ty n
      /\ (1 <= n)%N /\ (n < counter_value (pseudonymCounters reg) ty)%N.

(** No pseudonym is stored for two texts. *)
Definition one_to_one (reg : registry) : Prop :=
  forall x y p,
    pseudonymMapping reg !! x = Some p ->
    pseudonymMapping reg !! y = Some p ->
    x = y.

(** The extensions with a branch of their own in [processFile]. *)
Definition anonymizedTypes : list jsstring :=
  [u ".txt"; u ".csv"; u ".xlsx"; u ".docx"; u ".pdf"].

(** [reg'] is a later state of [reg] in a program run: it has every entry
    of [reg]. *)
Definition later_state (reg reg' : registry) : Prop :=
  reachable reg'
  /\ forall x q,
       pseudonymMapping reg !! x = Some q ->
       pseudonymMapping reg' !! x = Some q.

(** [files.forEach((f) => addFile(f))], from a given [selectedFiles]. *)
Definition addFiles (extname toLowerCase : jsstring -> jsstring)
    (files selectedFiles : list fileObj) : list fileObj :=
  fold_left (fun sel f => addFile extname toLowerCase f sel) files
    selectedFiles.

(** A selection without two files of one path and with supported types
    only. *)
Definition clean_selection (extname toLowerCase : jsstring -> jsstring)
    (sel : list fileObj) : Prop :=
  NoDup (map path sel)
  /\ Forall (fun g => validateFileType extname toLowerCase (path g) = true)
       sel.

(** ** The two registry objects as JavaScript reads them

    [pseudonymCounters] and [pseudonymMapping] are object literals [{}], read
    and written with [obj[key]].  Besides its own properties such an object
    shows the properties of [Object.prototype]; a counter is a double, the
    replacement of line 164 runs the regular expression for the first time
    and can throw, and so can what [processFile] calls to write.  Module
    [Js] has [getPseudonym], [anonymizeText] and [processFile] with these
    cases written out.  [getPseudonym] and [anonymizeText] above are the
    same functions where none of the cases arises ([getPseudonym_embed],
    [anonymize_loop_embed]): keys that name no member of [Object.prototype],
    counters below 2^53, a replacement that does not throw. *)

(** The number a string of decimal digits writes; [None] for the empty
    string and for a string with another character in it. *)
Definition decimal_step (acc : option N) (c : N) : option N :=
  match acc with
  | Some n => if Char.is_digit c then Some (10 * n + (c - 48))%N else None
  | None => None
  end.

Definition decimal_value (digits : jsstring) : option N :=
  match digits with
  | [] => None
  | _ :: _ => fold_left decimal_step digits (Some 0%N)
  end.

Module Js.

(** The names of the properties of [Object.prototype]. *)
Definition prototype_names : list jsstring :=
  [u "constructor"; u "__defineGetter__"; u "__defineSetter__";
   u "hasOwnProperty"; u "__lookupGetter__"; u "__lookupSetter__";
   u "isPrototypeOf"; u "propertyIsEnumerable"; u "toString"; u "valueOf";
   u "__proto__"; u "toLocaleString"].

(** What [obj[key]] finds: an own property, a member of [Object.prototype]
    (a function, or [Object.prototype] itself under [__proto__]; truthy in
    either case), or nothing. *)
Inductive property (A : Type) :=
  | Own (v : A)
  | Inherited
  | Undefined.
Arguments Own {A} v.
Arguments Inherited {A}.
Arguments Undefined {A}.

(** [obj[key]] for an object with the own properties [obj].  [__proto__] is
    an accessor of [Object.prototype]: reading it never looks at the own
    properties. *)
Definition get {A : Type} (obj : gmap jsstring A) (key : jsstring)
  : property A :=
  if bool_decide (key = u "__proto__") then Inherited
  else
    match obj !! key with
    | Some v => Own v
    | None =>
        if bool_decide (key ∈ prototype_names) then Inherited else Undefined
    end.

(** [obj[key] = v] for a string or a number [v]: an own property is
    created or updated, also under the name of an inherited function; the
    setter of [__proto__] ignores a value that is not an object. *)
Definition put {A : Type} (key : jsstring) (v : A) (obj : gmap jsstring A)
  : gmap jsstring A :=
  if bool_decide (key = u "__proto__") then obj else <[key := v]> obj.

(** A counter: an integer (at most 2^53 in every state the program
    reaches), or NaN. *)
Inductive number :=
  | Num (n : N)
  | NaN.

Definition truthy_number (v : number) : bool :=
  match v with
  | Num n => negb (n =? 0)%N
  | NaN => false
  end.

(** [v + 1] in double precision: 2^53 + 1 is rounded back to 2^53. *)
Definition increment (v : number) : number :=
  match v with
  | Num n => Num (if (n <? 9007199254740992)%N then n + 1 else n)
  | NaN => NaN
  end.

(** The text a template literal writes for a counter. *)
Definition ToString (v : number) : jsstring :=
  match v with
  | Num n => Number_toString n
  | NaN => u "NaN"
  end.

(** What [getPseudonym] returns: a string, or the member of
    [Object.prototype] of the given name. *)
Inductive value :=
  | Str (s : jsstring)
  | Member (name : jsstring).

Record registry := Registry {
  pseudonymCounters : gmap jsstring number;
  pseudonymMapping : gmap jsstring jsstring
}.

Definition empty_registry : registry := Registry ∅ ∅.

(** [getPseudonym].  [stored] is the value returned at line 36, if the
    test of line 35 succeeds; [counters] is [pseudonymCounters] after lines
    38 to 40; [old] is what [pseudonymCounters[entityType]++] reads,
    converted to a number (a function or an object gives NaN). *)
Definition getPseudonym (entityText entityType : jsstring) (reg : registry)
  : value * registry :=
  let stored :=
    match get (pseudonymMapping reg) entityText with
    | Own p => if truthy p then Some (Str p) else None
    | Inherited => Some (Member entityText)
    | Undefined => None
    end in
  match stored with
  | Some v => (v, reg)
  | None =>
      let counters :=
        match get (pseudonymCounters reg) entityType with
        | Own n =>
            if truthy_number n then pseudonymCounters reg
            else put entityType (Num 1) (pseudonymCounters reg)
        | Inherited => pseudonymCounters reg
        | Undefined => put entityType (Num 1) (pseudonymCounters reg)
        end in
      let old :=
        match get counters entityType with
        | Own n => n
        | Inherited | Undefined => NaN
        end in
      let pseudonym := entityType ++ 95%N :: ToString old in
      (Str pseudonym,
       Registry (put entityType (increment old) counters)
                (put entityText pseudonym (pseudonymMapping reg)))
  end.

(** A session: [getPseudonym] called on each (text, type) pair in turn. *)
Definition resolve_all (calls : list (jsstring * jsstring)) (reg : registry)
  : registry :=
  fold_left (fun r call => snd (getPseudonym (fst call) (snd call) r)) calls reg.

Section Pipeline.

(** The classifier and the constructor as above.  [compiles r] tells
    whether the engine can run the regular expression it has accepted: it
    compiles a pattern when the pattern is first executed, and throws from
    there when the pattern is too large.  [call_member name matched] is the
    replacement text that the member [name] of [Object.prototype] yields
    for a match when it is passed to [replace], [None] when it throws: a
    function is called with the match as its first argument and its result
    is converted to a string. *)
Variable ner : jsstring -> option (list prediction).
Variable RegExp : jsstring -> option regex.
Variable compiles : regex -> bool.
Variable call_member : jsstring -> jsstring -> option jsstring.

(** The text put in the place of one match. *)
Definition substitution (replaceValue : value)
    (matched before after : jsstring) : option jsstring :=
  match replaceValue with
  | Str replacement => Some (expand replacement matched before after)
  | Member name => call_member name matched
  end.

(** The loop of [replace_loop], for a replacement that can throw. *)
Fixpoint replace_loop (r : regex) (replaceValue : value) (before : jsstring)
    (skip : nat) (s : jsstring) : option jsstring :=
  match s with
  | [] =>
      match match_here r [] with
      | Some _ => substitution replaceValue [] before []
      | None => Some []
      end
  | d :: s' =>
      match skip with
      | S k => replace_loop r replaceValue (before ++ [d]) k s'
      | O =>
          match match_here r s with
          | Some (S k) =>
              match substitution replaceValue (take (S k) s) before
                      (drop (S k) s),
                    replace_loop r replaceValue (before ++ [d]) k s' with
              | Some new, Some rest => Some (new ++ rest)
              | _, _ => None
              end
          | Some O =>
              match substitution replaceValue [] before s,
                    replace_loop r replaceValue (before ++ [d]) 0 s' with
              | Some new, Some rest => Some (new ++ d :: rest)
              | _, _ => None
              end
          | None => cons d <$> replace_loop r replaceValue (before ++ [d]) 0 s'
          end
      end
  end.

(** [processedText.replace(fuzzyRegex, pseudonym)]; [None] when it throws. *)
Definition replace (r : regex) (replaceValue : value) (str : jsstring)
  : option jsstring :=
  if compiles r then replace_loop r replaceValue [] 0 str else None.

(** The [for (const obj of merged)] loop.  The call of [replace] stands
    outside any [try]: when it throws, the loop and [anonymizeText] are left
    at once ([None]), with the registry as it is then. *)
Fixpoint anonymize_loop (merged : list span) (processedText : jsstring)
    (reg : registry) : option jsstring * registry :=
  match merged with
  | [] => (Some processedText, reg)
  | obj :: rest =>
      let entityType := type obj in
      let mergedString := text obj in
      if negb (truthy mergedString) then anonymize_loop rest processedText reg
      else
        let '(pseudonym, reg') := getPseudonym mergedString entityType reg in
        match buildFuzzyRegex RegExp mergedString with
        | None => anonymize_loop rest processedText reg'
        | Some fuzzyRegex =>
            match replace fuzzyRegex pseudonym processedText with
            | Some processedText' => anonymize_loop rest processedText' reg'
            | None => (None, reg')
            end
        end
  end.

(** [anonymizeText]: the text returned, [None] when the promise is
    rejected, and the registry left behind. *)
Definition anonymizeText (text : jsstring) (reg : registry)
  : option jsstring * registry :=
  let processedText := text in
  let predictions := ner processedText in
  let merged := aggressiveMergeTokens predictions in
  anonymize_loop merged processedText reg.

End Pipeline.

(** A loop over a list that is left at the first element whose step
    throws. *)
Fixpoint for_each {A S : Type} (f : A -> S -> option A * S) (l : list A)
    (s : S) : option (list A) * S :=
  match l with
  | [] => (Some [], s)
  | a :: l' =>
      match f a s with
      | (Some b, s1) =>
          match for_each f l' s1 with
          | (Some bs, s2) => (Some (b :: bs), s2)
          | (None, s2) => (None, s2)
          end
      | (None, s1) => (None, s1)
      end
  end.

Section FileProcessor.

(** [writer w] tells whether writing [w] to the output path succeeds:
    building the document and [fs.writeFileSync], [workbook.xlsx.writeFile]
    or [fs.copyFileSync].  Every failure, of a reader, of [anonymizeText] or
    of the writer, is caught at line 271 and rejects the promise. *)
Variable extname : jsstring -> jsstring.
Variable toLowerCase : jsstring -> jsstring.
Variable readFileSync : jsstring -> option jsstring.
Variable readWorkbook : jsstring -> option workbook.
Variable extractRawText : jsstring -> option jsstring.
Variable pdfParse : jsstring -> option jsstring.
Variable writer : written -> bool.
Variable ner : jsstring -> option (list prediction).
Variable RegExp : jsstring -> option regex.
Variable compiles : regex -> bool.
Variable call_member : jsstring -> jsstring -> option jsstring.

Definition write (w : written) : settled :=
  if writer w then Resolved w else Rejected.

Definition anonymizeCell (value : cell_value) (reg : registry)
  : option cell_value * registry :=
  match value with
  | CellString s =>
      match anonymizeText ner RegExp compiles call_member s reg with
      | (Some t, reg') => (Some (CellString t), reg')
      | (None, reg') => (None, reg')
      end
  | CellOther tag => (Some (CellOther tag), reg)
  end.

Definition anonymizeWorkbook (wb : workbook) (reg : registry)
  : option workbook * registry :=
  for_each (for_each (for_each anonymizeCell)) wb reg.

Definition processFile (filePath : jsstring) (reg : registry)
  : settled * registry :=
  let ext := toLowerCase (extname filePath) in
  if bool_decide (ext = u ".txt" \/ ext = u ".csv") then
    match readFileSync filePath with
    | None => (Rejected, reg)
    | Some content =>
        if useLLM then
          match anonymizeText ner RegExp compiles call_member content reg with
          | (Some anonymizedText, reg') =>
              (write (WriteText (u "Anonymized" ++ [10; 10]%N
                                 ++ anonymizedText)), reg')
          | (None, reg') => (Rejected, reg')
          end
        else (write (WriteText (u "Anonymized" ++ [10; 10]%N ++ content)), reg)
    end
  else if bool_decide (ext = u ".xlsx") then
    match readWorkbook filePath with
    | None => (Rejected, reg)
    | Some wb =>
        match anonymizeWorkbook wb reg with
        | (Some wb', reg') => (write (WriteWorkbook wb'), reg')
        | (None, reg') => (Rejected, reg')
        end
    end
  else if bool_decide (ext = u ".docx") then
    match extractRawText filePath with
    | None => (Rejected, reg)
    | Some docxText =>
        if useLLM then
          match anonymizeText ner RegExp compiles call_member docxText reg with
          | (Some anonymizedDocxText, reg') =>
              (write (WriteDocx anonymizedDocxText), reg')
          | (None, reg') => (Rejected, reg')
          end
        else (write (WriteDocx docxText), reg)
    end
  else if bool_decide (ext = u ".pdf") then
    match pdfParse filePath with
    | None => (Rejected, reg)
    | Some pdfText =>
        if useLLM then
          match anonymizeText ner RegExp compiles call_member pdfText reg with
          | (Some anonymizedPdfText, reg') =>
              (write (WritePdf anonymizedPdfText), reg')
          | (None, reg') => (Rejected, reg')
          end
        else (write (WritePdf pdfText), reg)
    end
  else (write CopyFile, reg).

End FileProcessor.

End Js.

(** A registry of own properties, as the two objects. *)
Definition embed (reg : registry) : Js.registry :=
  Js.Registry (Js.Num <$> pseudonymCounters reg) (pseudonymMapping reg).

(** The calls of a session whose text names no member of
    [Object.prototype]. *)
Definition ordinary_calls (calls : list (jsstring * jsstring))
  : list (jsstring * jsstring) :=
  List.filter (fun call => bool_decide (fst call ∉ Js.prototype_names)) calls.

(** ** The definitions on small inputs *)

Example normalize_word : normalize (u " Smith") = u "Smith".
Proof. reflexivity. Qed.

Example normalize_keeps_retained_punctuation :
  normalize (u "O'Neil-Lee, Jr.") = u "O'Neil-Lee,Jr.".
Proof. reflexivity. Qed.

Example normalize_punctuation_only : normalize (u " (!) ") = [].
Proof. reflexivity. Qed.

Example strip_prefix_once :
  strip_prefix (u "B-I-PER") = u "I-PER" /\ strip_prefix (u "O") = u "O".
Proof. split; reflexivity. Qed.

Example pseudonym_of_decimal : pseudonym_of (u "PER") 120 = u "PER_120".
Proof. reflexivity. Qed.

Example escapeRegexChars_meta : escapeRegexChars (u "a.b*c") = u "a\.b\*c".
Proof. reflexivity. Qed.

Example build_pattern_two : build_pattern (u "a_") = u "a[^a-zA-Z0-9]*_[^a-zA-Z0-9]*".
Proof. reflexivity. Qed.

(** The star gives back the underscore it took when the pattern needs it. *)
Example match_backtracks :
  match_here (fuzzy_nodes (u "a_")) (u "a-_-b") = Some 4.
Proof. reflexivity. Qed.

Example replace_expands_dollar :
  replace [Lit 97; StarNotAlnum] (u "<$&|$`|$'|$$|$1>") (u "xxa--yy")
  = u "xx<a--|xx|yy|$|$1>yy".
Proof. reflexivity. Qed.

Example simpleHash_abc : simpleHash (u "abc") = u "17862".
Proof. reflexivity. Qed.

(** A hash that wraps to the least 32-bit integer. *)
Example simpleHash_negative :
  simpleHash (u "polygenelubricants") = u "-80000000".
Proof. reflexivity. Qed.

Example processFiles_stops_at_the_limit :
  let files := repeat (FileObj (u "/home/a.txt") (u "a.txt")) 5 in
  let st := UserState None false 98 (Some (u "2026-01-01")) in
  length (fst (processFiles (u "2026-01-01") files st)) = 2
  /\ dailyCount (snd (processFiles (u "2026-01-01") files st)) = 101%N.
Proof. split; reflexivity. Qed.

Example getPseudonym_inherited_type :
  fst (Js.getPseudonym (u "Bob") (u "constructor")
         (snd (Js.getPseudonym (u "Ann") (u "constructor")
                 Js.empty_registry)))
  = Js.Str (u "constructor_1").
Proof. reflexivity. Qed.

Example decimal_value_digits :
  decimal_value (u "120") = Some 120%N /\ decimal_value (u "12a") = None
  /\ decimal_value [] = None.
Proof. repeat split. Qed.

(** [Object], called with the match, returns the match: the text stays as
    it is and nothing is registered. *)
Example anonymizeText_constructor :
  Js.anonymizeText (fun _ => Some [tok "constructor" "B-PER"]) RegExp_ig
    (fun _ => true)
    (fun name matched =>
       if bool_decide (name = u "constructor") then Some matched else None)
    (u "the constructor ran") Js.empty_registry
  = (Some (u "the constructor ran"), Js.empty_registry).
Proof. vm_compute. reflexivity. Qed.

(** The end-to-end scenario on the objects: the same text and registry. *)
Example anonymizeText_scenario_agrees :
  Js.anonymizeText (fun _ => Some scenario_predictions) RegExp_ig
    (fun _ => true) (fun _ _ => None) scenario_text Js.empty_registry
  = (Some (fst (scenario_run scenario_predictions)),
     embed (snd (scenario_run scenario_predictions))).
Proof. vm_compute. reflexivity. Qed.

(** An engine that cannot run a pattern of ten terms or more: the first
    replacement throws, [JohnSmith] is registered and [London] is not. *)
Example anonymizeText_aborts :
  let result :=
    Js.anonymizeText
      (fun _ => Some [tok "John" "B-PER"; tok " Smith" "I-PER";
                      tok " London" "B-LOC"])
      RegExp_ig (fun r => length r <? 10) (fun _ _ => None)
      (u "John Smith is in London") Js.empty_registry in
  fst result = None
  /\ Js.pseudonymMapping (snd result) !! u "JohnSmith" = Some (u "PER_1")
  /\ Js.pseudonymMapping (snd result) !! u "London" = None.
Proof. vm_compute. auto. Qed.

(** ** The merger *)

Section Merger.

Implicit Types (ps rest : list prediction) (cur : span)
  (current : option span) (merged : list span).

Lemma merge_loop_spans ps merged current :
  (let '(m, c) := merge_loop ps merged current in m ++ flush c)
  = merged ++ spans_from current ps.
Proof.
  revert merged current.
  induction ps as [|pred rest IH]; intros merged current; simpl.
  - reflexivity.
  - destruct (truthy (normalize (word pred))); simpl.
    + destruct current as [cur|].
      * destruct (decide (type cur = strip_prefix (entity pred))).
        -- apply IH.
        -- rewrite IH, <- app_assoc. reflexivity.
      * apply IH.
    + apply IH.
Qed.

Lemma aggressiveMergeTokens_spans ps :
  aggressiveMergeTokens (Some ps) = spans_from None ps.
Proof.
  pose proof (merge_loop_spans ps [] None) as H.
  destruct ps as [|p rest]; [reflexivity|].
  unfold aggressiveMergeTokens.
  destruct (merge_loop (p :: rest) [] None) as [m [c|]]; simpl in H.
  - exact H.
  - rewrite app_nil_r in H. exact H.
Qed.

Lemma truthy_true (s : jsstring) : truthy s = true <-> s <> [].
Proof. destruct s; simpl; split; congruence. Qed.

Lemma spans_from_skip pred rest current :
  normalize (word pred) = [] ->
  spans_from current (pred :: rest) = spans_from current rest.
Proof. intros H. simpl. rewrite H. reflexivity. Qed.

Lemma spans_from_app_skip ps pred rest current :
  normalize (word pred) = [] ->
  spans_from current (ps ++ pred :: rest) = spans_from current (ps ++ rest).
Proof.
  intros H. revert current.
  induction ps as [|q ps IH]; intros current.
  - apply spans_from_skip, H.
  - simpl. destruct (truthy (normalize (word q))); simpl; [|apply IH].
    destruct current as [cur|]; [|apply IH].
    destruct (decide (type cur = strip_prefix (entity q)));
      rewrite IH; reflexivity.
Qed.



Lemma spans_from_nonempty ps current :
  (forall cur, current = Some cur -> text cur <> []) ->
  Forall (fun sp => text sp <> []) (spans_from current ps).
Proof.
  revert current. induction ps as [|q ps IH]; intros current Hcur; simpl.
  - destruct current as [cur|]; simpl; auto.
  - destruct (truthy (normalize (word q))) eqn:Hw; simpl; [|apply IH, Hcur].
    apply truthy_true in Hw.
    destruct current as [cur|].
    + destruct (decide (type cur = strip_prefix (entity q))).
      * apply IH. intros c [= <-]. simpl.
        intros H. apply app_eq_nil in H. tauto.
      * constructor; [apply Hcur; reflexivity|].
        apply IH. intros c [= <-]. exact Hw.
    + apply IH. intros c [= <-]. exact Hw.
Qed.

Lemma kept_tokens_cons_kept q ps :
  truthy (normalize (word q)) = true ->
  kept_tokens (q :: ps) = q :: kept_tokens ps.
Proof. intros H. unfold kept_tokens. simpl. rewrite H. reflexivity. Qed.

Lemma kept_tokens_cons_skipped q ps :
  truthy (normalize (word q)) = false ->
  kept_tokens (q :: ps) = kept_tokens ps.
Proof. intros H. unfold kept_tokens. simpl. rewrite H. reflexivity. Qed.

(** With an open accumulator [cur], the first span emitted is [cur]
    extended by a run of tokens of its type, and the rest of the output
    is merged from the following runs. *)
Lemma spans_from_some_runs ps : forall cur,
  exists run runs sp spans,
    spans_from (Some cur) ps = sp :: spans
    /\ run ++ concat runs = kept_tokens ps
    /\ type sp = type cur
    /\ text sp = text cur ++ concat (map (fun p => normalize (word p)) run)
    /\ Forall (fun p => strip_prefix (entity p) = type cur) run
    /\ Forall2 merged_from spans runs.
Proof.
  induction ps as [|q ps IH]; intros cur.
  - exists [], [], cur, []. simpl. rewrite app_nil_r.
    repeat split; constructor.
  - cbn [spans_from]. destruct (truthy (normalize (word q))) eqn:Hw; cbn [negb].
    + rewrite (kept_tokens_cons_kept _ _ Hw).
      destruct (decide (type cur = strip_prefix (entity q))) as [e|ne].
      * destruct (IH (Span (type cur) (text cur ++ normalize (word q))))
          as (run & runs & sp & spans & Hs & Hc & Hty & Htx & Hall & Hrest).
        exists (q :: run), runs, sp, spans. simpl in *.
        rewrite Hc, Htx, <- app_assoc. repeat split; auto.
      * destruct (IH (Span (strip_prefix (entity q)) (normalize (word q))))
          as (run & runs & sp & spans & Hs & Hc & Hty & Htx & Hall & Hrest).
        exists [], ((q :: run) :: runs), cur, (sp :: spans). simpl in *.
        rewrite Hs, Hc, app_nil_r. repeat split; auto.
        constructor; [|exact Hrest].
        unfold merged_from. simpl. rewrite Hty, Htx.
        repeat split; [discriminate|].
        constructor; [reflexivity|exact Hall].
    + rewrite (kept_tokens_cons_skipped _ _ Hw). apply IH.
Qed.

Lemma spans_from_none_runs ps :
  exists runs, concat runs = kept_tokens ps
               /\ Forall2 merged_from (spans_from None ps) runs.
Proof.
  induction ps as [|q ps IH].
  - exists []. split; [reflexivity|constructor].
  - cbn [spans_from]. destruct (truthy (normalize (word q))) eqn:Hw; cbn [negb].
    + rewrite (kept_tokens_cons_kept _ _ Hw).
      destruct (spans_from_some_runs ps
                  (Span (strip_prefix (entity q)) (normalize (word q))))
        as (run & runs & sp & spans & Hs & Hc & Hty & Htx & Hall & Hrest).
      exists ((q :: run) :: runs). simpl in *. rewrite Hs, Hc.
      split; [reflexivity|].
      constructor; [|exact Hrest].
      unfold merged_from. simpl. rewrite Hty, Htx.
      repeat split; [discriminate|].
      constructor; [reflexivity|exact Hall].
    + rewrite (kept_tokens_cons_skipped _ _ Hw). exact IH.
Qed.

End Merger.



(** C3: a token whose word normalizes to the empty string is skipped and
    the accumulation in progress is not disturbed.  Such a token can be
    deleted from any stream without changing the result; a token of type
    [T], the empty fragment, and another token of type [T] merge to the
    single span of type [T] whose text is the two normalized words
    concatenated; and in the middle of any stream the two tokens land in
    one accumulator, nothing being pushed between them. *)
Theorem empty_fragment_keeps_accumulation (t1 e t2 : prediction) (T : jsstring) :
  normalize (word e) = [] ->
  strip_prefix (entity t1) = T ->
  strip_prefix (entity t2) = T ->
  truthy (normalize (word t1)) = true ->
  truthy (normalize (word t2)) = true ->
  (forall pre post,
      aggressiveMergeTokens (Some (pre ++ e :: post))
      = aggressiveMergeTokens (Some (pre ++ post)))
  /\ aggressiveMergeTokens (Some [t1; e; t2])
     = [Span T (normalize (word t1) ++ normalize (word t2))]
  /\ (forall rest merged current,
        exists merged' acc,
          merge_loop (t1 :: e :: t2 :: rest) merged current
          = merge_loop rest merged'
              (Some (Span T (acc ++ normalize (word t1) ++ normalize (word t2))))
          /\ (merged' = merged
              \/ exists cur, current = Some cur /\ merged' = merged ++ [cur])).
Proof.
  intros He H1 H2 Hw1 Hw2. split; [|split].
  - intros pre post. rewrite !aggressiveMergeTokens_spans.
    apply spans_from_app_skip, He.
  - rewrite aggressiveMergeTokens_spans. simpl.
    rewrite He, Hw1, Hw2, H1, H2. simpl.
    destruct (decide (T = T)); [reflexivity|congruence].
  - intros rest merged current.
    cbn [merge_loop]. rewrite He, Hw1, Hw2, H1, H2. simpl.
    destruct current as [cur|].
    + destruct (decide (type cur = T)) as [e0|ne]; simpl.
      * destruct (decide (type cur = T)); [|congruence].
        exists merged, (text cur). rewrite e0, <- app_assoc. auto.
      * destruct (decide (T = T)); [|congruence].
        exists (merged ++ [cur]), []. simpl. eauto.
    + destruct (decide (T = T)); [|congruence].
      exists merged, []. simpl. auto.
Qed.

(** Two PER tokens around a fragment that normalizes to nothing. *)
Lemma empty_fragment_keeps_accumulation_witness :
  aggressiveMergeTokens (Some [tok "Bay" "B-PER"; tok " !" "O"; tok "ona" "I-PER"])
  = [Span (u "PER") (u "Bayona")].
Proof.
  apply (empty_fragment_keeps_accumulation
           (tok "Bay" "B-PER") (tok " !" "O") (tok "ona" "I-PER") (u "PER"));
    reflexivity.
Defined.

(** C10: the merger's output is well formed.  A null and an empty
    prediction list give the empty list; every emitted span has a non-empty
    text; and the output is, span by span and in order, merged from the
    consecutive runs that partition the kept tokens of the input, so the
    spans stand in the order of the tokens that opened them. *)
Theorem merged_spans_well_formed (predictions : option (list prediction)) :
  aggressiveMergeTokens None = []
  /\ aggressiveMergeTokens (Some []) = []
  /\ Forall (fun sp => text sp <> []) (aggressiveMergeTokens predictions)
  /\ exists runs,
       concat runs = kept_tokens (default [] predictions)
       /\ Forall2 merged_from (aggressiveMergeTokens predictions) runs.
Proof.
  split; [reflexivity|]. split; [reflexivity|].
  destruct predictions as [ps|].
  - rewrite aggressiveMergeTokens_spans. split.
    + apply spans_from_nonempty. discriminate.
    + apply spans_from_none_runs.
  - simpl. split; [constructor|].
    exists []. split; [reflexivity|constructor].
Qed.

(** ** The registry *)

Section Registry.

Implicit Types (reg : registry) (calls : list (jsstring * jsstring))
  (x t ty p : jsstring).

Lemma pseudonym_of_truthy ty n : truthy (pseudonym_of ty n) = true.
Proof. unfold pseudonym_of. destruct ty; reflexivity. Qed.

Lemma getPseudonym_hit x ty reg p :
  pseudonymMapping reg !! x = Some p -> truthy p = true ->
  getPseudonym x ty reg = (p, reg).
Proof. intros H Hp. unfold getPseudonym. rewrite H, Hp. reflexivity. Qed.

Lemma getPseudonym_miss x ty reg :
  pseudonymMapping reg !! x = None ->
  getPseudonym x ty reg = allocate x ty reg.
Proof. intros H. unfold getPseudonym. rewrite H. reflexivity. Qed.

(** Whatever the registry, the text is afterwards stored with the
    pseudonym returned, a non-empty string. *)
Lemma getPseudonym_stored x ty reg :
  pseudonymMapping (snd (getPseudonym x ty reg)) !! x
  = Some (fst (getPseudonym x ty reg))
  /\ truthy (fst (getPseudonym x ty reg)) = true.
Proof.
  unfold getPseudonym.
  destruct (pseudonymMapping reg !! x) as [p|] eqn:Hx.
  - destruct (truthy p) eqn:Hp; simpl.
    + auto.
    + rewrite lookup_insert_eq. split; [reflexivity|apply pseudonym_of_truthy].
  - simpl. rewrite lookup_insert_eq.
    split; [reflexivity|apply pseudonym_of_truthy].
Qed.

(** No call overwrites or removes a stored pseudonym. *)
Lemma getPseudonym_preserves x ty reg y q :
  pseudonymMapping reg !! y = Some q -> truthy q = true ->
  pseudonymMapping (snd (getPseudonym x ty reg)) !! y = Some q.
Proof.
  intros Hy Hq. unfold getPseudonym.
  destruct (pseudonymMapping reg !! x) as [p|] eqn:Hx.
  - destruct (truthy p) eqn:Hp; simpl; [exact Hy|].
    destruct (decide (x = y)) as [->|ne]; [congruence|].
    rewrite lookup_insert_ne by exact ne. exact Hy.
  - simpl. destruct (decide (x = y)) as [->|ne]; [congruence|].
    rewrite lookup_insert_ne by exact ne. exact Hy.
Qed.

Lemma resolve_all_cons x ty calls reg :
  resolve_all ((x, ty) :: calls) reg
  = resolve_all calls (snd (getPseudonym x ty reg)).
Proof. reflexivity. Qed.

Lemma resolve_all_app calls calls' reg :
  resolve_all (calls ++ calls') reg = resolve_all calls' (resolve_all calls reg).
Proof. unfold resolve_all. apply fold_left_app. Qed.

Lemma resolve_all_preserves calls reg y q :
  pseudonymMapping reg !! y = Some q -> truthy q = true ->
  pseudonymMapping (resolve_all calls reg) !! y = Some q.
Proof.
  revert reg. induction calls as [|[x ty] calls IH]; intros reg Hy Hq.
  - exact Hy.
  - rewrite resolve_all_cons. apply IH; [|exact Hq].
    apply getPseudonym_preserves; assumption.
Qed.

(** Every pseudonym stored in a reachable registry is a non-empty string. *)
Lemma reachable_truthy reg y q :
  reachable reg -> pseudonymMapping reg !! y = Some q -> truthy q = true.
Proof.
  intros [calls ->]. revert y q.
  induction calls as [|[x ty] calls IH] using rev_ind; intros y q.
  - simpl. rewrite lookup_empty. discriminate.
  - rewrite resolve_all_app. simpl.
    set (reg := resolve_all calls empty_registry) in *.
    destruct (decide (x = y)) as [->|ne].
    + destruct (getPseudonym_stored y ty reg) as [Hs Ht].
      rewrite Hs. intros [= <-]. exact Ht.
    + unfold getPseudonym.
      destruct (pseudonymMapping reg !! x) as [p|] eqn:Hx.
      * destruct (truthy p); simpl; [apply IH|].
        rewrite lookup_insert_ne by exact ne. apply IH.
      * simpl. rewrite lookup_insert_ne by exact ne. apply IH.
Qed.

Lemma counter_value_insert (counters : gmap jsstring N) t ty :
  counter_value (<[t := (counter_value counters t + 1)%N]> counters) ty
  = ((if decide (t = ty) then 1 else 0) + counter_value counters ty)%N.
Proof.
  unfold counter_value at 1.
  destruct (decide (t = ty)) as [->|ne].
  - rewrite lookup_insert_eq.
    destruct (N.eqb_spec (counter_value counters ty + 1) 0); lia.
  - rewrite lookup_insert_ne by exact ne. reflexivity.
Qed.

Lemma session_state_step seen n ty reg x t :
  session_state seen n ty reg ->
  session_state (x :: seen)
    (n + (if decide ((x ∉ seen) /\ t = ty) then 1 else 0)) ty
    (snd (getPseudonym x t reg)).
Proof.
  intros (Hout & Hin & Hcnt).
  destruct (decide (x ∈ seen)) as [Hx|Hx].
  - destruct (Hin x Hx) as (p & Hp & Htp).
    rewrite (getPseudonym_hit _ _ _ _ Hp Htp). simpl.
    destruct (decide ((x ∉ seen) /\ t = ty)) as [[Hn _]|_]; [contradiction|].
    rewrite N.add_0_r. repeat split.
    + intros y Hy. apply Hout. intros Hy'. apply Hy. right. exact Hy'.
    + intros y Hy. apply elem_of_cons in Hy as [->|Hy]; eauto.
    + exact Hcnt.
  - rewrite (getPseudonym_miss _ _ _ (Hout x Hx)).
    unfold allocate, session_state. simpl. repeat split.
    + intros y Hy. apply not_elem_of_cons in Hy as [Hne Hy].
      rewrite lookup_insert_ne by congruence. apply Hout, Hy.
    + intros y Hy. destruct (decide (x = y)) as [->|ne].
      * rewrite lookup_insert_eq. eexists. split; [reflexivity|].
        apply pseudonym_of_truthy.
      * rewrite lookup_insert_ne by exact ne.
        apply elem_of_cons in Hy as [->|Hy]; [congruence|]. apply Hin, Hy.
    + rewrite counter_value_insert, Hcnt.
      destruct (decide (t = ty)) as [e|ne];
        destruct (decide ((x ∉ seen) /\ t = ty)) as [a|na]; try lia.
      * exfalso. apply na. auto.
      * exfalso. apply ne, a.
Qed.

Lemma session_state_resolve_all calls : forall seen n ty reg,
  session_state seen n ty reg ->
  session_state (rev (map fst calls) ++ seen)
    (n + first_sightings seen calls ty) ty (resolve_all calls reg).
Proof.
  induction calls as [|[x t] calls IH]; intros seen n ty reg H.
  - simpl. rewrite N.add_0_r. exact H.
  - rewrite resolve_all_cons. simpl.
    rewrite <- app_assoc, N.add_assoc. simpl.
    apply IH, session_state_step, H.
Qed.

Lemma elem_of_rev (x : jsstring) (l : list jsstring) : x ∈ rev l <-> x ∈ l.
Proof. rewrite !list_elem_of_In. symmetry. apply in_rev. Qed.

Lemma session_state_empty ty : session_state [] 0 ty empty_registry.
Proof.
  split; [|split].
  - intros x _. apply lookup_empty.
  - intros x Hx. inversion Hx.
  - reflexivity.
Qed.

End Registry.

(** C5: the mapping only grows.  Once [getPseudonym] has returned [p] for a
    text, then after any further calls a call with that text, under any
    type, returns [p] and leaves the registry exactly as it was (no entry
    changed or removed, no counter incremented); and along a program run an
    entry, once stored, is there with the same pseudonym ever after. *)
Theorem assigned_pseudonym_is_stable
    (text ty : jsstring) (reg reg1 : registry) (p : jsstring) :
  getPseudonym text ty reg = (p, reg1) ->
  (forall calls ty',
      getPseudonym text ty' (resolve_all calls reg1)
      = (p, resolve_all calls reg1))
  /\ (forall calls calls' x q,
        pseudonymMapping (resolve_all calls empty_registry) !! x = Some q ->
        pseudonymMapping (resolve_all (calls ++ calls') empty_registry) !! x
        = Some q).
Proof.
  intros H. split.
  - intros calls ty'.
    destruct (getPseudonym_stored text ty reg) as [Hs Ht].
    rewrite H in Hs, Ht. simpl in Hs, Ht.
    apply getPseudonym_hit; [|exact Ht].
    apply resolve_all_preserves; assumption.
  - intros calls calls' x q Hx. rewrite resolve_all_app.
    apply resolve_all_preserves; [exact Hx|].
    apply (reachable_truthy (resolve_all calls empty_registry) x);
      [exists calls; reflexivity|exact Hx].
Qed.

(** [JohnSmith] keeps [PER_1] after two other texts, also under [LOC]. *)
Lemma assigned_pseudonym_is_stable_witness :
  let reg1 := snd (getPseudonym (u "JohnSmith") (u "PER") empty_registry) in
  let reg2 := resolve_all [(u "JaneDoe", u "PER"); (u "London", u "LOC")] reg1 in
  getPseudonym (u "JohnSmith") (u "LOC") reg2 = (u "PER_1", reg2).
Proof.
  intros reg1 reg2.
  apply (assigned_pseudonym_is_stable (u "JohnSmith") (u "PER")
           empty_registry reg1 (u "PER_1")).
  reflexivity.
Defined.

(** ** The builder of fuzzy patterns *)

Section Builder.

Implicit Types (c d : N) (s w : jsstring).

Lemma is_meta_cases c :
  Char.is_meta c = true ->
  In c [45; 47; 92; 94; 36; 42; 43; 63; 46; 40; 41; 124; 91; 93; 123; 125]%N.
Proof.
  unfold Char.is_meta. intros H.
  repeat (apply orb_true_iff in H as [H|H]);
    apply N.eqb_eq in H; subst c; simpl; tauto.
Qed.

Lemma word_not_meta c : Char.is_word c = true -> Char.is_meta c = false.
Proof.
  intros Hw. destruct (Char.is_meta c) eqn:Hm; [|reflexivity].
  apply is_meta_cases in Hm. simpl in Hm.
  repeat (destruct Hm as [<-|Hm]; [discriminate Hw|]). destruct Hm.
Qed.

Lemma word_bound c : Char.is_word c = true -> (c < 128)%N.
Proof.
  unfold Char.is_word, Char.is_alnum, Char.is_lower, Char.is_upper,
    Char.is_digit, Char.in_range.
  intros H.
  repeat (apply orb_true_iff in H as [H|H]);
    try (apply andb_true_iff in H as [_ H]; apply N.leb_le in H; lia).
  apply N.eqb_eq in H. lia.
Qed.

Lemma word_not_high_surrogate c :
  Char.is_word c = true -> Char.is_high_surrogate c = false.
Proof.
  intros H. apply word_bound in H.
  unfold Char.is_high_surrogate, Char.in_range.
  apply andb_false_iff. left. apply N.leb_gt. lia.
Qed.

Lemma keep_word_Forall s :
  Forall (fun c => Char.is_word c = true) (keep Char.is_word s).
Proof.
  induction s as [|c s IH]; simpl; [constructor|].
  destruct (Char.is_word c) eqn:H; [constructor; assumption|exact IH].
Qed.

(** The stripped text holds nothing to escape. *)
Lemma escapeRegexChars_word w :
  Forall (fun c => Char.is_word c = true) w -> escapeRegexChars w = w.
Proof.
  induction 1 as [|c w Hc _ IH]; simpl; [reflexivity|].
  rewrite (word_not_meta c Hc), IH. reflexivity.
Qed.

(** On the stripped text the string iterator yields one code unit at a
    time. *)
Lemma string_iter_word w :
  Forall (fun c => Char.is_word c = true) w ->
  string_iter w = map (fun c => [c]) w.
Proof.
  induction 1 as [|c w Hc Hw IH]; [reflexivity|].
  cbn [string_iter]. rewrite (word_not_high_surrogate c Hc). cbn [andb].
  destruct w; [reflexivity|]. rewrite IH. reflexivity.
Qed.

Lemma fold_pattern (chars : list jsstring) (acc : jsstring) :
  fold_left (fun pattern char => pattern ++ char ++ class_star) chars acc
  = acc ++ flat_map (fun char => char ++ class_star) chars.
Proof.
  revert acc. induction chars as [|ch chars IH]; intros acc; simpl.
  - rewrite app_nil_r. reflexivity.
  - rewrite IH, <- !app_assoc. reflexivity.
Qed.

Lemma build_pattern_word w :
  Forall (fun c => Char.is_word c = true) w ->
  build_pattern w = flat_map (fun c => c :: class_star) w.
Proof.
  intros H. unfold build_pattern.
  rewrite fold_pattern, (string_iter_word w H). simpl.
  clear H. induction w as [|c w IH]; simpl; [reflexivity|].
  rewrite IH. reflexivity.
Qed.

Lemma parse_class_star (rest : jsstring) :
  parse_pattern [] (class_star ++ rest)
  = cons StarNotAlnum <$> parse_pattern [] rest.
Proof. reflexivity. Qed.

Lemma parse_word_char c (rest : jsstring) :
  Char.is_word c = true ->
  parse_pattern [] (c :: rest) = cons (Lit c) <$> parse_pattern [] rest.
Proof.
  intros Hw. cbn [parse_pattern].
  destruct (N.eqb_spec c 91) as [->|_]; [discriminate Hw|].
  destruct (N.eqb_spec c 92) as [->|_]; [discriminate Hw|].
  rewrite (word_not_meta c Hw). reflexivity.
Qed.

(** The engine compiles every pattern the builder writes. *)
Lemma RegExp_ig_pattern w :
  Forall (fun c => Char.is_word c = true) w ->
  RegExp_ig (flat_map (fun c => c :: class_star) w) = Some (fuzzy_nodes w).
Proof.
  unfold RegExp_ig.
  induction 1 as [|c w Hc _ IH]; [reflexivity|].
  cbn [flat_map]. change ((c :: class_star) ++ ?r) with (c :: class_star ++ r).
  rewrite (parse_word_char c _ Hc), parse_class_star, IH. reflexivity.
Qed.

Lemma build_pattern_truthy c w :
  truthy (flat_map (fun c => c :: class_star) (c :: w)) = true.
Proof. reflexivity. Qed.

(** What [buildFuzzyRegex] returns, over any engine and over the
    modelled one. *)
Lemma buildFuzzyRegex_unfold (RegExp : jsstring -> option regex) s :
  buildFuzzyRegex RegExp s
  = match keep Char.is_word s with
    | [] => None
    | c :: w => RegExp (flat_map (fun c => c :: class_star) (c :: w))
    end.
Proof.
  unfold buildFuzzyRegex.
  pose proof (keep_word_Forall s) as H.
  destruct (keep Char.is_word s) as [|c w]; [reflexivity|].
  cbn [truthy negb].
  rewrite (escapeRegexChars_word _ H), (build_pattern_word _ H).
  rewrite build_pattern_truthy. reflexivity.
Qed.

Lemma buildFuzzyRegex_ig s :
  buildFuzzyRegex RegExp_ig s
  = match keep Char.is_word s with
    | [] => None
    | c :: w => Some (fuzzy_nodes (c :: w))
    end.
Proof.
  rewrite buildFuzzyRegex_unfold.
  pose proof (keep_word_Forall s) as H.
  destruct (keep Char.is_word s) as [|c w]; [reflexivity|].
  apply RegExp_ig_pattern, H.
Qed.

Lemma keep_nil_iff (cls : N -> bool) s :
  keep cls s = [] <-> Forall (fun c => cls c = false) s.
Proof.
  induction s as [|c s IH]; simpl.
  - split; [constructor|reflexivity].
  - destruct (cls c) eqn:H.
    + split; [discriminate|]. intros HF. inversion HF. congruence.
    + rewrite IH. split; [constructor; assumption|].
      intros HF. inversion HF. assumption.
Qed.

End Builder.

(** C7, as the code has it: the builder strips the characters outside [\w]
    (ASCII letters, digits and the underscore) and returns null exactly
    when nothing is left.  A text without a word character gives null; a
    text with one gives the pattern made of its word characters only, the
    underscores among them. *)
Theorem buildFuzzyRegex_strips_non_word (s : jsstring) :
  (buildFuzzyRegex RegExp_ig s = None <-> keep Char.is_word s = [])
  /\ (Forall (fun c => Char.is_word c = false) s ->
      buildFuzzyRegex RegExp_ig s = None)
  /\ (Exists (fun c => Char.is_word c = true) s ->
      buildFuzzyRegex RegExp_ig s = Some (fuzzy_nodes (keep Char.is_word s))).
Proof.
  rewrite buildFuzzyRegex_ig. split; [|split].
  - destruct (keep Char.is_word s); split; congruence.
  - intros H. apply keep_nil_iff in H. rewrite H. reflexivity.
  - intros H. destruct (keep Char.is_word s) eqn:E; [|reflexivity].
    apply keep_nil_iff in E. apply Exists_exists in H as (c & Hc & Hw).
    rewrite Forall_forall in E. rewrite (E c Hc) in Hw. discriminate.
Qed.

(** C7 as stated fails: a text of underscores has no alphanumeric
    character and yet gets a pattern, and the pattern of [a_b] is not the
    one of its alphanumeric characters. *)
Lemma underscores_get_a_pattern :
  Forall (fun c => Char.is_alnum c = false) (u "___")
  /\ buildFuzzyRegex RegExp_ig (u "___")
     = Some [Lit 95; StarNotAlnum; Lit 95; StarNotAlnum; Lit 95; StarNotAlnum]
  /\ buildFuzzyRegex RegExp_ig (u "a_b")
     <> Some (fuzzy_nodes (keep Char.is_alnum (u "a_b"))).
Proof.
  split; [|split].
  - repeat constructor.
  - reflexivity.
  - vm_compute. discriminate.
Qed.

(** ** The pipeline *)

Section PipelineFacts.

Variable RegExp : jsstring -> option regex.

Lemma anonymize_loop_cons obj rest st :
  anonymize_loop RegExp (obj :: rest) st
  = anonymize_loop RegExp rest (anonymize_body RegExp st obj).
Proof. reflexivity. Qed.

Lemma getPseudonym_other x ty reg y :
  x <> y ->
  pseudonymMapping (snd (getPseudonym x ty reg)) !! y
  = pseudonymMapping reg !! y.
Proof.
  intros ne. unfold getPseudonym, allocate.
  destruct (pseudonymMapping reg !! x) as [p|].
  - destruct (truthy p); simpl; [reflexivity|].
    apply lookup_insert_ne, ne.
  - simpl. apply lookup_insert_ne, ne.
Qed.

Lemma anonymize_body_registry st obj :
  snd (anonymize_body RegExp st obj)
  = if truthy (text obj)
    then snd (getPseudonym (text obj) (type obj) (snd st))
    else snd st.
Proof.
  destruct st as [txt reg]. unfold anonymize_body.
  destruct (truthy (text obj)); simpl; [|reflexivity].
  destruct (getPseudonym (text obj) (type obj) reg) as [p reg'].
  destruct (buildFuzzyRegex RegExp (text obj)); reflexivity.
Qed.

Lemma anonymize_body_empty_unmapped st obj :
  pseudonymMapping (snd st) !! [] = None ->
  pseudonymMapping (snd (anonymize_body RegExp st obj)) !! [] = None.
Proof.
  intros H. rewrite anonymize_body_registry.
  destruct (truthy (text obj)) eqn:Ht; [|exact H].
  rewrite getPseudonym_other; [exact H|].
  intros E. rewrite E in Ht. discriminate.
Qed.

Lemma anonymize_loop_empty_unmapped merged st :
  pseudonymMapping (snd st) !! [] = None ->
  pseudonymMapping (snd (anonymize_loop RegExp merged st)) !! [] = None.
Proof.
  revert st. induction merged as [|obj rest IH]; intros st H; [exact H|].
  rewrite anonymize_loop_cons. apply IH, anonymize_body_empty_unmapped, H.
Qed.

End PipelineFacts.

(** C4, as the code has it: it is the pipeline, not [getPseudonym], that
    keeps the empty text out of the registry.  [anonymizeText] skips a span
    whose text is empty before it resolves anything, leaving text, mapping
    and counters as they are, and no run of [anonymizeText] creates a
    mapping entry for the empty string. *)
Theorem empty_text_is_never_resolved
    (ner : jsstring -> option (list prediction))
    (RegExp : jsstring -> option regex) (txt : jsstring) (reg : registry) :
  pseudonymMapping reg !! [] = None ->
  pseudonymMapping (snd (anonymizeText ner RegExp txt reg)) !! [] = None
  /\ (forall ty st, anonymize_body RegExp st (Span ty []) = st).
Proof.
  intros H. split.
  - unfold anonymizeText. apply anonymize_loop_empty_unmapped. exact H.
  - intros ty [t r]. reflexivity.
Qed.

(** A run from the registry at module load. *)
Lemma empty_text_is_never_resolved_witness :
  pseudonymMapping
    (snd (anonymizeText (fun _ => Some continuity_stream) RegExp_ig
            (u "John Smith works in London") empty_registry)) !! []
  = None.
Proof.
  refine (proj1 (empty_text_is_never_resolved
                   (fun _ => Some continuity_stream) RegExp_ig
                   (u "John Smith works in London") empty_registry _)).
  reflexivity.
Defined.

(** C4 as stated fails: [getPseudonym] has no case for the empty text; it
    returns a pseudonym for it, stores it and increments the counter. *)
Lemma getPseudonym_registers_empty_text :
  fst (getPseudonym [] (u "PER") empty_registry) = u "PER_1"
  /\ pseudonymMapping (snd (getPseudonym [] (u "PER") empty_registry)) !! []
     = Some (u "PER_1")
  /\ pseudonymCounters (snd (getPseudonym [] (u "PER") empty_registry))
       !! u "PER"
     = Some 2%N.
Proof. repeat split. Qed.

(** C8 as stated fails: no length is a cap, for beyond every length there
    is a span text for which the builder returns a pattern. *)
Lemma no_span_length_cap :
  ~ exists cap : nat,
      forall s : jsstring,
        cap < length s -> buildFuzzyRegex RegExp_ig s = None.
Proof.
  intros [cap H].
  specialize (H (repeat 97%N (S cap))).
  rewrite repeat_length, buildFuzzyRegex_ig in H.
  simpl in H. specialize (H (Nat.lt_succ_diag_r cap)). discriminate H.
Qed.

(** C1 at its input: the pattern of each span ends in the separator class
    under a star, which takes the separators after the entity with it.  The
    text returned has lost the space before [lives], the full stop and space
    after [St], the space before [at] and the final full stop; one PERSON
    pseudonym is allocated and used for both occurrences.  With the [O]
    tokens left in the stream the text is rewritten further still. *)
Theorem scenario_loses_separators :
  fst (scenario_run scenario_predictions)
  = u "PERSON_1lives at LOCATION_1Contact PERSON_1at PHONE_1"
  /\ fst (scenario_run scenario_predictions)
     <> u "PERSON_1 lives at LOCATION_1. Contact PERSON_1 at PHONE_1."
  /\ pseudonymMapping (snd (scenario_run scenario_predictions))
       !! u "JohnSmith" = Some (u "PERSON_1")
  /\ pseudonymCounters (snd (scenario_run scenario_predictions))
       !! u "PERSON" = Some 2%N
  /\ fst (scenario_run scenario_predictions_with_outside)
     = u "PERSON_1O_1LOCO_3ION_1O_2PERSON_1O_3PHONE_1".
Proof.
  split; [|split; [|split; [|split]]].
  - vm_compute. reflexivity.
  - vm_compute. discriminate.
  - vm_compute. reflexivity.
  - vm_compute. reflexivity.
  - vm_compute. reflexivity.
Qed.

(** ** Matching and global replacement *)

Section Matching.

Implicit Types (r : regex) (c d : N) (s p before : jsstring).

Lemma match_here_lit c r d s :
  Char.canonicalize c = Char.canonicalize d ->
  match_here (Lit c :: r) (d :: s) = S <$> match_here r s.
Proof. intros H. simpl. rewrite H, N.eqb_refl. reflexivity. Qed.

Lemma match_here_lit_fail c r d s :
  Char.canonicalize c <> Char.canonicalize d ->
  match_here (Lit c :: r) (d :: s) = None.
Proof. intros H. simpl. apply N.eqb_neq in H. rewrite H. reflexivity. Qed.

Lemma match_here_star_alnum r d s :
  Char.is_alnum d = true ->
  match_here (StarNotAlnum :: r) (d :: s) = match_here r (d :: s).
Proof. intros H. simpl. rewrite H. reflexivity. Qed.

Lemma match_here_star_sep r d s :
  Char.is_alnum d = false ->
  match_here (StarNotAlnum :: r) (d :: s)
  = match match_here (StarNotAlnum :: r) s with
    | Some n => Some (S n)
    | None => match_here r (d :: s)
    end.
Proof. intros H. simpl. rewrite H. reflexivity. Qed.

(** The star that ends a pattern takes every separator in front of it. *)
Lemma match_here_last_star s :
  match_here [StarNotAlnum] s = Some (length (separators s)).
Proof.
  induction s as [|d s IH]; [reflexivity|].
  destruct (Char.is_alnum d) eqn:H.
  - rewrite match_here_star_alnum by exact H. simpl. rewrite H. reflexivity.
  - rewrite match_here_star_sep by exact H. rewrite IH. simpl.
    rewrite H. reflexivity.
Qed.

(** A replacement without a dollar sign is inserted as it is. *)
Lemma expand_plain p matched before after :
  36%N ∉ p -> expand p matched before after = p.
Proof.
  induction p as [|c p IH]; intros H; [reflexivity|].
  apply not_elem_of_cons in H as [Hc Hp]. cbn [expand].
  destruct (N.eqb_spec c 36) as [->|_]; [congruence|].
  rewrite IH by exact Hp. reflexivity.
Qed.

Lemma replace_loop_before r p before before' skip s :
  36%N ∉ p ->
  replace_loop r p before skip s = replace_loop r p before' skip s.
Proof.
  intros Hp. revert before before' skip.
  induction s as [|d s IH]; intros before before' skip; simpl.
  - destruct (match_here r []); [|reflexivity].
    rewrite !expand_plain by exact Hp. reflexivity.
  - destruct skip as [|k]; [|apply IH].
    destruct (match_here r (d :: s)) as [[|k]|];
      rewrite ?expand_plain by exact Hp;
      rewrite (IH (before ++ [d]) (before' ++ [d])); reflexivity.
Qed.

(** The loop passes over the code units of a match. *)
Lemma replace_loop_skip r p before matched n s :
  replace_loop r p before (length matched + n) (matched ++ s)
  = replace_loop r p (before ++ matched) n s.
Proof.
  revert before. induction matched as [|d m IH]; intros before.
  - rewrite app_nil_r. reflexivity.
  - cbn [length app Nat.add replace_loop].
    rewrite IH, <- app_assoc. reflexivity.
Qed.

Lemma replace_loop_skip_separators r p before s :
  replace_loop r p before (length (separators s)) s
  = replace_loop r p (before ++ separators s) 0 (skip_separators s).
Proof.
  revert before. induction s as [|d s IH]; intros before.
  - rewrite app_nil_r. reflexivity.
  - cbn [separators skip_separators].
    destruct (negb (Char.is_alnum d)).
    + cbn [length replace_loop]. rewrite IH, <- app_assoc. reflexivity.
    + rewrite app_nil_r. reflexivity.
Qed.

(** A match of [matched] and the separators after it, at the head of the
    subject, is replaced, and the loop goes on behind the separators. *)
Lemma replace_loop_match r p before d matched s :
  36%N ∉ p ->
  match_here r (d :: matched ++ s)
  = Some (S (length matched + length (separators s))) ->
  replace_loop r p before 0 (d :: matched ++ s)
  = p ++ replace r p (skip_separators s).
Proof.
  intros Hp Hm. cbn [replace_loop]. rewrite Hm.
  rewrite expand_plain by exact Hp. f_equal.
  rewrite replace_loop_skip, replace_loop_skip_separators.
  apply replace_loop_before, Hp.
Qed.

Lemma replace_loop_inside r p before k d s :
  replace_loop r p before (S k) (d :: s)
  = replace_loop r p (before ++ [d]) k s.
Proof. reflexivity. Qed.

Lemma replace_loop_at r p before d s :
  replace_loop r p before 0 (d :: s)
  = match match_here r (d :: s) with
    | Some (S k) =>
        expand p (take (S k) (d :: s)) before (drop (S k) (d :: s))
        ++ replace_loop r p (before ++ [d]) k s
    | Some O =>
        expand p [] before (d :: s)
        ++ d :: replace_loop r p (before ++ [d]) 0 s
    | None => d :: replace_loop r p (before ++ [d]) 0 s
    end.
Proof. reflexivity. Qed.

(** A match is no longer than the subject. *)
Lemma match_here_bound r : forall s n,
  match_here r s = Some n -> n <= length s.
Proof.
  induction r as [|[l|] r IH]; intros s n.
  - intros [= <-]. lia.
  - destruct s as [|d s]; [discriminate|]. simpl.
    destruct (_ =? _)%N; [|discriminate].
    destruct (match_here r s) as [m|] eqn:Hm; [|discriminate].
    intros [= <-]. apply IH in Hm. lia.
  - revert n. induction s as [|d s IHs]; intros n.
    + apply IH.
    + destruct (Char.is_alnum d) eqn:Hd.
      * rewrite match_here_star_alnum by exact Hd. apply IH.
      * rewrite match_here_star_sep by exact Hd.
        destruct (match_here (StarNotAlnum :: r) s) as [m|] eqn:Hm.
        -- intros [= <-]. specialize (IHs m eq_refl). simpl. lia.
        -- apply IH.
Qed.

(** A pattern that does not contain the alphanumeric [c] matches in front
    of [c] as it does at the end of the subject. *)
Lemma match_here_stops c r rest :
  Char.is_alnum c = true -> avoids c r ->
  forall s, match_here r (s ++ c :: rest) = match_here r s.
Proof.
  intros Hc Hr. induction Hr as [|[l|] r Hl _ IH]; intros s.
  - reflexivity.
  - destruct s as [|d s].
    + apply match_here_lit_fail, Hl.
    + cbn [app].
      destruct (N.eq_dec (Char.canonicalize l) (Char.canonicalize d)) as [e|ne].
      * rewrite !match_here_lit by exact e. rewrite IH. reflexivity.
      * rewrite !match_here_lit_fail by exact ne. reflexivity.
  - induction s as [|d s IHs].
    + cbn [app]. rewrite match_here_star_alnum by exact Hc.
      apply (IH []).
    + cbn [app]. destruct (Char.is_alnum d) eqn:Hd.
      * rewrite !match_here_star_alnum by exact Hd. apply (IH (d :: s)).
      * rewrite !match_here_star_sep by exact Hd.
        pose proof (IH (d :: s)) as E. cbn [app] in E.
        rewrite IHs, E. reflexivity.
Qed.

(** In front of an occurrence that starts with [c], the text is rewritten
    as it would be on its own. *)
Lemma replace_loop_split l r p c rest :
  36%N ∉ p -> Char.is_alnum c = true -> avoids c r ->
  forall pre before skip,
    skip <= length pre ->
    replace_loop (Lit l :: r) p before skip (pre ++ c :: rest)
    = replace_loop (Lit l :: r) p before skip pre
      ++ replace_loop (Lit l :: r) p (before ++ pre) 0 (c :: rest).
Proof.
  intros Hp Hc Hr.
  assert (Hm : forall d pre,
             match_here (Lit l :: r) (d :: pre ++ c :: rest)
             = match_here (Lit l :: r) (d :: pre)).
  { intros d pre.
    destruct (N.eq_dec (Char.canonicalize l) (Char.canonicalize d)) as [e|ne].
    - rewrite !match_here_lit by exact e.
      rewrite (match_here_stops c r rest Hc Hr). reflexivity.
    - rewrite !match_here_lit_fail by exact ne. reflexivity. }
  induction pre as [|d pre IH]; intros before skip Hk.
  - simpl in Hk. replace skip with 0 by lia.
    rewrite app_nil_r. reflexivity.
  - assert (Hb : (before ++ [d]) ++ pre = before ++ d :: pre)
      by (rewrite <- app_assoc; reflexivity).
    cbn [app]. destruct skip as [|k].
    + rewrite (replace_loop_at _ _ before d (pre ++ c :: rest)),
        (replace_loop_at _ _ before d pre), Hm.
      destruct (match_here (Lit l :: r) (d :: pre)) as [[|k]|] eqn:E.
      * rewrite !expand_plain by exact Hp.
        rewrite IH, Hb, <- app_assoc by lia. reflexivity.
      * apply match_here_bound in E. simpl in E.
        rewrite !expand_plain by exact Hp.
        rewrite IH, Hb, <- app_assoc by lia. reflexivity.
      * rewrite IH, Hb by lia. reflexivity.
    + simpl in Hk. rewrite !replace_loop_inside.
      rewrite IH, Hb by lia. reflexivity.
Qed.

End Matching.

Section MatchingSteps.

Implicit Types (r : regex) (c d : N) (s : jsstring) (n : nat).

Lemma match_lit_ok c r d s n :
  Char.canonicalize c = Char.canonicalize d ->
  match_here r s = Some n ->
  match_here (Lit c :: r) (d :: s) = Some (S n).
Proof. intros H Hn. rewrite match_here_lit, Hn by exact H. reflexivity. Qed.

Lemma match_star_alnum_ok r d s n :
  Char.is_alnum d = true ->
  match_here r (d :: s) = Some n ->
  match_here (StarNotAlnum :: r) (d :: s) = Some n.
Proof. intros H Hn. rewrite match_here_star_alnum by exact H. exact Hn. Qed.

Lemma match_star_sep_ok r d s n :
  Char.is_alnum d = false ->
  match_here (StarNotAlnum :: r) s = Some n ->
  match_here (StarNotAlnum :: r) (d :: s) = Some (S n).
Proof.
  intros H Hn. rewrite match_here_star_sep, Hn by exact H. reflexivity.
Qed.

End MatchingSteps.

(** Runs the matcher along a subject with a known head and an unknown tail
    behind the last star. *)
Ltac run_match :=
  repeat first
    [ apply match_here_last_star
    | apply match_lit_ok; [reflexivity|]
    | apply match_star_sep_ok; [reflexivity|]
    | apply match_star_alnum_ok; [reflexivity|] ].

(** Shows that a written-out pattern has no character standing for a
    given code unit. *)
Ltac show_avoids :=
  repeat (constructor;
          [first [exact I | let H := fresh in intros H; discriminate H]|]);
  constructor.

(** Replacement around an occurrence [d :: matched] of a text whose pattern
    has [d] as its first character only. *)
Ltac replace_occurrence d matched :=
  let pre := fresh "pre" in
  let post := fresh "post" in
  let p := fresh "p" in
  let Hp := fresh "Hp" in
  intros pre post p Hp;
  unfold replace; cbn [app];
  rewrite (replace_loop_split d _ p d (matched ++ post) Hp eq_refl);
  [|show_avoids|apply Nat.le_0_l];
  f_equal;
  apply (replace_loop_match _ p _ d matched post Hp);
  cbn [app length Nat.add];
  run_match.

(** C9: the pattern built for [JohnSmith] matches each of [John Smith],
    [John-Smith] and [JOHN SMITH] in full, and global replacement replaces
    the string wherever it occurs: in any text, the occurrence (with the
    separators that follow it) is replaced by the pseudonym, the text before
    it is rewritten as it would be on its own, and replacement goes on in
    the text behind. *)
Theorem fuzzy_pattern_matches_variants :
  exists r,
    buildFuzzyRegex RegExp_ig (u "JohnSmith") = Some r
    /\ Forall
         (fun x =>
            match_here r x = Some (length x)
            /\ forall pre post p,
                 36%N ∉ p ->
                 replace r p (pre ++ x ++ post)
                 = replace r p pre ++ p ++ replace r p (skip_separators post))
         [u "John Smith"; u "John-Smith"; u "JOHN SMITH"]
    /\ replace r (u "PER_1")
         (u "Dear John-Smith, JOHN SMITH wrote (as John Smith).")
       = u "Dear PER_1PER_1wrote (as PER_1".
Proof.
  exists (fuzzy_nodes (u "JohnSmith")).
  split; [reflexivity|]. split; [|vm_compute; reflexivity].
  let r := eval vm_compute in (fuzzy_nodes (u "JohnSmith")) in
  change (fuzzy_nodes (u "JohnSmith")) with r.
  repeat constructor.
  - let x := eval vm_compute in (u "John Smith") in
    change (u "John Smith") with x.
    replace_occurrence 74%N [111; 104; 110; 32; 83; 109; 105; 116; 104]%N.
  - let x := eval vm_compute in (u "John-Smith") in
    change (u "John-Smith") with x.
    replace_occurrence 74%N [111; 104; 110; 45; 83; 109; 105; 116; 104]%N.
  - let x := eval vm_compute in (u "JOHN SMITH") in
    change (u "JOHN SMITH") with x.
    replace_occurrence 74%N [79; 72; 78; 32; 83; 77; 73; 84; 72]%N.
Qed.

(** ** Further properties of the merger *)

Section MergerMore.

Implicit Types (ps : list prediction) (cur : span)
  (current : option span).

Lemma spans_from_head cur ps :
  exists sp rest, spans_from (Some cur) ps = sp :: rest /\ type sp = type cur.
Proof.
  revert cur. induction ps as [|q ps IH]; intros cur; simpl.
  - exists cur, []. auto.
  - destruct (truthy (normalize (word q))); simpl; [|apply IH].
    destruct (decide (type cur = strip_prefix (entity q))).
    + destruct (IH (Span (type cur) (text cur ++ normalize (word q))))
        as (sp & rest & E & Hty).
      exists sp, rest. auto.
    + eauto.
Qed.

Lemma spans_from_some_alternate ps cur :
  types_alternate (spans_from (Some cur) ps).
Proof.
  revert cur. induction ps as [|q ps IH]; intros cur; simpl.
  - exact I.
  - destruct (truthy (normalize (word q))); simpl; [|apply IH].
    destruct (decide (type cur = strip_prefix (entity q))) as [e|ne];
      [apply IH|].
    pose proof (IH (Span (strip_prefix (entity q)) (normalize (word q))))
      as Halt.
    destruct (spans_from_head
                (Span (strip_prefix (entity q)) (normalize (word q))) ps)
      as (sp & rest & E & Hty).
    rewrite E in *. simpl. split; [|exact Halt].
    rewrite Hty. exact ne.
Qed.

Lemma spans_from_alternate ps current :
  types_alternate (spans_from current ps).
Proof.
  destruct current as [cur|]; [apply spans_from_some_alternate|].
  induction ps as [|q ps IH]; simpl; [exact I|].
  destruct (truthy (normalize (word q))); simpl; [|exact IH].
  apply spans_from_some_alternate.
Qed.

Lemma types_alternate_middle (l1 : list span) a b l2 :
  types_alternate (l1 ++ a :: b :: l2) -> type a <> type b.
Proof.
  induction l1 as [|x l1 IH]; simpl.
  - tauto.
  - destruct (l1 ++ a :: b :: l2) eqn:E; [destruct l1; discriminate|].
    intros [_ H]. apply IH, H.
Qed.

Lemma spans_from_texts ps current :
  concat (map text (spans_from current ps))
  = concat (map text (flush current))
    ++ concat (map (fun p => normalize (word p)) ps).
Proof.
  revert current. induction ps as [|q ps IH]; intros current; simpl.
  - rewrite app_nil_r. reflexivity.
  - destruct (truthy (normalize (word q))) eqn:Hw; simpl.
    + destruct current as [cur|]; simpl.
      * destruct (decide (type cur = strip_prefix (entity q))); simpl;
          rewrite IH; simpl; rewrite ?app_nil_r, <- ?app_assoc; reflexivity.
      * rewrite IH. simpl. rewrite app_nil_r. reflexivity.
    + rewrite IH. destruct (normalize (word q)); [reflexivity|discriminate].
Qed.

(** The code units [normalize] lets through. *)
Lemma trim_start_incl (s : jsstring) c : In c (trim_start s) -> In c s.
Proof.
  induction s as [|d s IH]; simpl; [tauto|].
  destruct (Char.is_space d); simpl; tauto.
Qed.

Lemma normalize_units (w : jsstring) c :
  In c (normalize w) ->
  Char.is_space c = false /\ Char.is_retained c = true.
Proof.
  unfold normalize, trim, keep, delete_spaces. intros H.
  apply in_rev, trim_start_incl, in_rev, trim_start_incl in H.
  apply filter_In in H as [H Hr]. apply filter_In in H as [_ Hs].
  split; [|exact Hr]. destruct (Char.is_space c); [discriminate|reflexivity].
Qed.

End MergerMore.

(** X1: no two consecutive spans of the merger's output have the same
    type. *)
Theorem consecutive_spans_differ_in_type
    (predictions : option (list prediction)) (l1 l2 : list span) (a b : span) :
  aggressiveMergeTokens predictions = l1 ++ a :: b :: l2 ->
  type a <> type b.
Proof.
  intros H. apply (types_alternate_middle l1 a b l2). rewrite <- H.
  destruct predictions as [ps|]; [|exact I].
  rewrite aggressiveMergeTokens_spans. apply spans_from_alternate.
Qed.

(** The two first spans of the continuity stream. *)
Lemma consecutive_spans_differ_in_type_witness : u "PER" <> u "O".
Proof.
  apply (consecutive_spans_differ_in_type (Some continuity_stream) []
           [Span (u "LOC") (u "London")]
           (Span (u "PER") (u "JohnSmith")) (Span (u "O") (u "works"))).
  reflexivity.
Defined.

(** X2: the merger loses and reorders nothing: the texts of the spans, one
    after the other, are the normalized words of the tokens, one after the
    other. *)
Theorem merged_texts_are_the_normalized_words
    (predictions : option (list prediction)) :
  concat (map text (aggressiveMergeTokens predictions))
  = concat (map (fun p => normalize (word p)) (default [] predictions)).
Proof.
  destruct predictions as [ps|]; [|reflexivity].
  rewrite aggressiveMergeTokens_spans. apply spans_from_texts.
Qed.

(** X3: a span text holds no white space and nothing but word characters,
    full stops, commas, apostrophes and hyphens. *)
Theorem merged_texts_have_retained_units
    (predictions : option (list prediction)) (sp : span) (c : N) :
  In sp (aggressiveMergeTokens predictions) ->
  In c (text sp) ->
  Char.is_space c = false
  /\ (Char.is_word c = true \/ In c [46; 44; 39; 45]%N).
Proof.
  intros Hsp Hc.
  assert (H : In c (concat (map text (aggressiveMergeTokens predictions)))).
  { apply in_concat. exists (text sp). split; [|exact Hc].
    apply in_map, Hsp. }
  destruct predictions as [ps|]; [|destruct Hsp].
  rewrite aggressiveMergeTokens_spans, spans_from_texts in H. simpl in H.
  apply in_concat in H as (w & Hw & Hcw).
  apply in_map_iff in Hw as (q & <- & _).
  apply normalize_units in Hcw as [Hs Hr]. split; [exact Hs|].
  unfold Char.is_retained in Hr. rewrite Hs, orb_false_r in Hr.
  destruct (Char.is_word c); [left; reflexivity|right].
  simpl in Hr.
  destruct (N.eqb_spec c 46) as [->|_]; [simpl; tauto|].
  destruct (N.eqb_spec c 44) as [->|_]; [simpl; tauto|].
  destruct (N.eqb_spec c 39) as [->|_]; [simpl; tauto|].
  destruct (N.eqb_spec c 45) as [->|_]; [simpl; tauto|].
  discriminate Hr.
Qed.

(** A comma between two PER tokens stays in the span text. *)
Lemma merged_texts_have_retained_units_witness :
  Char.is_space 44 = false
  /\ (Char.is_word 44 = true \/ In 44%N [46; 44; 39; 45]%N).
Proof.
  apply (merged_texts_have_retained_units
           (Some [tok "Bay," "B-PER"; tok " ona" "I-PER"])
           (Span (u "PER") (u "Bay,ona")) 44%N).
  - left. reflexivity.
  - vm_compute. tauto.
Defined.

(** ** Further properties of the registry *)

Section RegistryMore.

Implicit Types (reg : registry) (calls : list (jsstring * jsstring))
  (x y ty p : jsstring).

Lemma uint_units_inj (d d' : Decimal.uint) :
  uint_units d = uint_units d' -> d = d'.
Proof.
  revert d'. induction d; destruct d'; simpl; intros H;
    try discriminate H; try reflexivity;
    injection H as H; f_equal; auto.
Qed.

Lemma uint_units_digits (d : Decimal.uint) : 95%N ∉ uint_units d.
Proof.
  induction d; simpl; [apply not_elem_of_nil|..];
    apply not_elem_of_cons; (split; [discriminate|assumption]).
Qed.

Lemma Number_toString_inj (n n' : N) :
  Number_toString n = Number_toString n' -> n = n'.
Proof.
  intros H. apply DecimalN.Unsigned.to_uint_inj, uint_units_inj, H.
Qed.

(** A string is cut in one way only at its last underscore. *)
Lemma last_separator_unique (a a' b b' : jsstring) (sep : N) :
  sep ∉ b -> sep ∉ b' ->
  a ++ sep :: b = a' ++ sep :: b' -> a = a' /\ b = b'.
Proof.
  intros Hb Hb'. revert a'.
  induction a as [|c a IH]; intros [|c' a']; simpl; intros H.
  - injection H as H. auto.
  - injection H as _ H. exfalso. apply Hb. rewrite H.
    apply elem_of_app. right. left.
  - injection H as _ H. exfalso. apply Hb'. rewrite <- H.
    apply elem_of_app. right. left.
  - injection H as -> H. destruct (IH _ H) as [-> ->]. auto.
Qed.

Lemma pseudonym_of_inj ty ty' (n n' : N) :
  pseudonym_of ty n = pseudonym_of ty' n' -> ty = ty' /\ n = n'.
Proof.
  unfold pseudonym_of, Number_toString. intros H.
  apply last_separator_unique in H as [-> H];
    try apply uint_units_digits.
  split; [reflexivity|]. apply Number_toString_inj, H.
Qed.

Lemma counter_value_pos (counters : gmap jsstring N) ty :
  (1 <= counter_value counters ty)%N.
Proof.
  unfold counter_value. destruct (counters !! ty) as [n|]; [|lia].
  destruct (N.eqb_spec n 0); lia.
Qed.

Lemma allocate_well_numbered x ty reg :
  well_numbered reg -> well_numbered (snd (allocate x ty reg)).
Proof.
  intros Hn y p. unfold allocate. simpl.
  rewrite lookup_insert. destruct (decide (x = y)) as [_|_].
  - intros [= <-]. exists ty, (counter_value (pseudonymCounters reg) ty).
    rewrite counter_value_insert.
    pose proof (counter_value_pos (pseudonymCounters reg) ty).
    destruct (decide (ty = ty)); [|congruence].
    repeat split; lia.
  - intros Hy. destruct (Hn y p Hy) as (ty' & n & -> & H1 & H2).
    exists ty', n. rewrite counter_value_insert.
    repeat split; [exact H1|]. destruct (decide (ty = ty')); lia.
Qed.

Lemma allocate_one_to_one x ty reg :
  well_numbered reg -> one_to_one reg -> one_to_one (snd (allocate x ty reg)).
Proof.
  intros Hn Hi a b p. unfold allocate. simpl.
  rewrite !lookup_insert.
  assert (Hnew : forall z,
             pseudonymMapping reg !! z
             <> Some (pseudonym_of ty
                        (counter_value (pseudonymCounters reg) ty))).
  { intros z Hz. destruct (Hn z _ Hz) as (ty' & n & E & _ & Hlt).
    apply pseudonym_of_inj in E as [<- <-]. lia. }
  destruct (decide (x = a)) as [<-|na]; destruct (decide (x = b)) as [<-|nb].
  - reflexivity.
  - intros [= <-] Hb. destruct (Hnew b Hb).
  - intros Ha [= <-]. destruct (Hnew a Ha).
  - apply Hi.
Qed.

Lemma getPseudonym_invariants x ty reg :
  well_numbered reg /\ one_to_one reg ->
  well_numbered (snd (getPseudonym x ty reg))
  /\ one_to_one (snd (getPseudonym x ty reg)).
Proof.
  intros [Hn Hi]. unfold getPseudonym.
  destruct (pseudonymMapping reg !! x) as [p|].
  - destruct (truthy p); [split; assumption|].
    split; [apply allocate_well_numbered|apply allocate_one_to_one];
      assumption.
  - split; [apply allocate_well_numbered|apply allocate_one_to_one];
      assumption.
Qed.

Lemma reachable_invariants reg :
  reachable reg -> well_numbered reg /\ one_to_one reg.
Proof.
  intros [calls ->].
  induction calls as [|[x ty] calls IH] using rev_ind.
  - split; [intros x p H|intros x y p H _];
      simpl in H; rewrite lookup_empty in H; discriminate H.
  - rewrite resolve_all_app. apply getPseudonym_invariants, IH.
Qed.

(** A session continued is a session. *)
Lemma reachable_resolve_all calls reg :
  reachable reg -> reachable (resolve_all calls reg).
Proof.
  intros [calls0 ->]. exists (calls0 ++ calls).
  rewrite resolve_all_app. reflexivity.
Qed.

End RegistryMore.

(** ** Further properties of the pipeline *)

Section PipelineMore.

Variable RegExp : jsstring -> option regex.

Implicit Types (merged : list span) (reg : registry) (txt x : jsstring).

Lemma anonymize_loop_registry merged : forall txt reg,
  snd (anonymize_loop RegExp merged (txt, reg))
  = resolve_all
      (calls_of (List.filter (fun sp => truthy (text sp)) merged)) reg.
Proof.
  induction merged as [|obj rest IH]; intros txt reg; [reflexivity|].
  rewrite anonymize_loop_cons.
  pose proof (anonymize_body_registry RegExp (txt, reg) obj) as Hb.
  destruct (anonymize_body RegExp (txt, reg) obj) as [txt' reg'].
  simpl in Hb. rewrite IH, Hb. simpl.
  destruct (truthy (text obj)); reflexivity.
Qed.

Lemma filter_nonempty_texts merged :
  Forall (fun sp => text sp <> []) merged ->
  List.filter (fun sp => truthy (text sp)) merged = merged.
Proof.
  induction 1 as [|sp rest Hsp _ IH]; simpl; [reflexivity|].
  apply truthy_true in Hsp. rewrite Hsp, IH. reflexivity.
Qed.

Lemma merged_texts_nonempty (predictions : option (list prediction)) :
  Forall (fun sp => text sp <> []) (aggressiveMergeTokens predictions).
Proof.
  destruct predictions as [ps|]; [|constructor].
  rewrite aggressiveMergeTokens_spans.
  apply spans_from_nonempty. discriminate.
Qed.

Lemma anonymizeText_resolves ner txt reg :
  snd (anonymizeText ner RegExp txt reg)
  = resolve_all (calls_of (aggressiveMergeTokens (ner txt))) reg.
Proof.
  unfold anonymizeText.
  rewrite anonymize_loop_registry, filter_nonempty_texts;
    [reflexivity|apply merged_texts_nonempty].
Qed.

Lemma anonymizeText_preserves ner txt reg x q :
  pseudonymMapping reg !! x = Some q -> truthy q = true ->
  pseudonymMapping (snd (anonymizeText ner RegExp txt reg)) !! x = Some q.
Proof.
  intros Hx Hq. rewrite anonymizeText_resolves.
  apply resolve_all_preserves; assumption.
Qed.

Lemma anonymizeText_reachable ner txt reg :
  reachable reg -> reachable (snd (anonymizeText ner RegExp txt reg)).
Proof.
  intros H. rewrite anonymizeText_resolves.
  apply reachable_resolve_all, H.
Qed.

End PipelineMore.

(** X6: when the classifier returns nothing, or only tokens whose words
    normalize to the empty string, [anonymizeText] returns the text as it
    was given and leaves the registry as it was. *)
Theorem no_entity_leaves_text_and_registry
    (ner : jsstring -> option (list prediction))
    (RegExp : jsstring -> option regex) (txt : jsstring) (reg : registry) :
  ner txt = None
  \/ (exists ps, ner txt = Some ps
                 /\ Forall (fun p => normalize (word p) = []) ps) ->
  anonymizeText ner RegExp txt reg = (txt, reg).
Proof.
  intros H. unfold anonymizeText.
  assert (E : aggressiveMergeTokens (ner txt) = []).
  { destruct H as [->|(ps & -> & Hall)]; [reflexivity|].
    rewrite aggressiveMergeTokens_spans.
    induction Hall as [|q ps Hq _ IH]; [reflexivity|].
    rewrite spans_from_skip by exact Hq. exact IH. }
  rewrite E. reflexivity.
Qed.

(** A classifier that returns two punctuation tokens. *)
Lemma no_entity_leaves_text_and_registry_witness :
  anonymizeText (fun _ => Some [tok "(" "O"; tok " !" "O"]) RegExp_ig
    (u "( !") empty_registry
  = (u "( !", empty_registry).
Proof.
  apply no_entity_leaves_text_and_registry.
  right. exists [tok "(" "O"; tok " !" "O"].
  split; [reflexivity|]. repeat constructor.
Defined.

(** X9: for any engine, the pattern text [buildFuzzyRegex] hands to it is
    the word characters of the span text, each followed by
    [[^a-zA-Z0-9]*]: [escapeRegexChars] changes nothing in the stripped
    text, and the second [return null], for an empty pattern, is never
    taken. *)
Theorem buildFuzzyRegex_pattern_text
    (RegExp : jsstring -> option regex) (s : jsstring) :
  escapeRegexChars (keep Char.is_word s) = keep Char.is_word s
  /\ (keep Char.is_word s <> [] ->
      truthy (build_pattern (escapeRegexChars (keep Char.is_word s))) = true
      /\ buildFuzzyRegex RegExp s
         = RegExp (flat_map (fun c => c :: class_star) (keep Char.is_word s))).
Proof.
  pose proof (keep_word_Forall s) as H. split.
  - apply escapeRegexChars_word, H.
  - intros Hne. rewrite buildFuzzyRegex_unfold.
    rewrite (escapeRegexChars_word _ H), (build_pattern_word _ H).
    destruct (keep Char.is_word s) as [|c w]; [congruence|].
    split; reflexivity.
Qed.

(** ** The registry and the pipeline on the objects themselves *)

Section Decimal.

Import DecimalPos.Unsigned.

(** Reading the digits of a decimal numeral from the left. *)
Lemma decimal_fold (d : Decimal.uint) : forall a : N,
  fold_left decimal_step (uint_units d) (Some a)
  = Some (a * 10 ^ usize d + of_lu (Decimal.rev d))%N.
Proof.
  induction d; intros a; cbn [uint_units fold_left decimal_step];
    [simpl; f_equal; lia|..];
    change (Char.is_digit _) with true; cbn iota;
    match goal with
    | |- context [Decimal.rev (?f d)] =>
        change (Decimal.rev (f d)) with (Decimal.revapp d (f Decimal.Nil))
    end;
    rewrite of_lu_revapp, IHd; f_equal;
    cbn [of_lu usize]; rewrite N.pow_succ_r';
    match goal with
    | |- context [(?x - 48)%N] =>
        let v := eval vm_compute in (x - 48)%N in change (x - 48)%N with v
    end;
    ring.
Qed.

Lemma uint_units_nil (d : Decimal.uint) : uint_units d = [] -> d = Decimal.Nil.
Proof. destruct d; simpl; congruence. Qed.

(** The digits a template literal writes for [n] read back as [n]. *)
Lemma decimal_value_Number_toString (n : N) :
  decimal_value (Number_toString n) = Some n.
Proof.
  unfold decimal_value, Number_toString.
  destruct (uint_units (N.to_uint n)) eqn:E.
  - apply uint_units_nil in E. destruct n as [|p]; [discriminate E|].
    simpl in E. destruct (DecimalPos.Unsigned.to_uint_nonnil p E).
  - rewrite <- E.
    rewrite decimal_fold, N.mul_0_l, N.add_0_l.
    rewrite <- of_uint_alt. change (Pos.of_uint ?d) with (N.of_uint d).
    rewrite DecimalN.Unsigned.of_to. reflexivity.
Qed.

End Decimal.

Section JsRegistry.

Implicit Types (reg : registry) (calls : list (jsstring * jsstring))
  (x y ty p : jsstring).

Lemma proto_is_prototype_name : u "__proto__" ∈ Js.prototype_names.
Proof. apply list_elem_of_In. simpl. tauto. Qed.

Lemma get_own_name {A : Type} (obj : gmap jsstring A) key :
  key ∉ Js.prototype_names ->
  Js.get obj key
  = match obj !! key with Some v => Js.Own v | None => Js.Undefined end.
Proof.
  intros H. unfold Js.get.
  rewrite bool_decide_eq_false_2.
  - destruct (obj !! key); [reflexivity|].
    rewrite bool_decide_eq_false_2 by exact H. reflexivity.
  - intros ->. apply H, proto_is_prototype_name.
Qed.

Lemma get_prototype_name {A : Type} (obj : gmap jsstring A) key :
  key ∈ Js.prototype_names -> obj !! key = None ->
  Js.get obj key = Js.Inherited.
Proof.
  intros H Hn. unfold Js.get. rewrite Hn.
  rewrite (bool_decide_eq_true_2 _ H).
  destruct (bool_decide _); reflexivity.
Qed.

Lemma put_own_name {A : Type} (obj : gmap jsstring A) key (v : A) :
  key ∉ Js.prototype_names -> Js.put key v obj = <[key := v]> obj.
Proof.
  intros H. unfold Js.put. rewrite bool_decide_eq_false_2; [reflexivity|].
  intros ->. apply H, proto_is_prototype_name.
Qed.

(** On a text and a type that name no member of [Object.prototype], and
    with the counter below 2^53, the call does what it does on the own
    properties. *)
Lemma getPseudonym_embed x ty reg :
  x ∉ Js.prototype_names -> ty ∉ Js.prototype_names ->
  (counter_value (pseudonymCounters reg) ty < 9007199254740992)%N ->
  Js.getPseudonym x ty (embed reg)
  = (Js.Str (fst (getPseudonym x ty reg)), embed (snd (getPseudonym x ty reg))).
Proof.
  intros Hx Hty Hlt.
  assert (Halloc :
    (let counters :=
       match Js.get (Js.pseudonymCounters (embed reg)) ty with
       | Js.Own n =>
           if Js.truthy_number n then Js.pseudonymCounters (embed reg)
           else Js.put ty (Js.Num 1) (Js.pseudonymCounters (embed reg))
       | Js.Inherited => Js.pseudonymCounters (embed reg)
       | Js.Undefined => Js.put ty (Js.Num 1) (Js.pseudonymCounters (embed reg))
       end in
     let old :=
       match Js.get counters ty with
       | Js.Own n => n
       | Js.Inherited | Js.Undefined => Js.NaN
       end in
     let pseudonym := ty ++ 95%N :: Js.ToString old in
     (Js.Str pseudonym,
      Js.Registry (Js.put ty (Js.increment old) counters)
        (Js.put x pseudonym (Js.pseudonymMapping (embed reg)))))
    = (Js.Str (fst (allocate x ty reg)), embed (snd (allocate x ty reg)))).
  { unfold allocate, embed, counter_value in *.
    cbn [fst snd Js.pseudonymCounters Js.pseudonymMapping pseudonymCounters
         pseudonymMapping].
    rewrite (get_own_name (Js.Num <$> pseudonymCounters reg) ty Hty), lookup_fmap.
    rewrite !(put_own_name _ ty _ Hty), (put_own_name _ x _ Hx).
    destruct (pseudonymCounters reg !! ty) as [n|] eqn:En;
      cbn [fmap option_fmap option_map Js.truthy_number].
    - destruct (N.eqb_spec n 0) as [->|Hn]; cbn [negb].
      + rewrite (get_own_name _ ty Hty), lookup_insert_eq.
        cbn [Js.increment Js.ToString].
        rewrite insert_insert_eq, fmap_insert. reflexivity.
      + rewrite (get_own_name _ ty Hty), lookup_fmap, En.
        cbn [fmap option_fmap option_map Js.increment Js.ToString].
        apply N.ltb_lt in Hlt. rewrite Hlt, fmap_insert. reflexivity.
    - rewrite (get_own_name _ ty Hty), lookup_insert_eq.
      cbn [Js.increment Js.ToString].
      rewrite insert_insert_eq, fmap_insert. reflexivity. }
  unfold Js.getPseudonym, getPseudonym.
  rewrite (get_own_name _ x Hx).
  change (Js.pseudonymMapping (embed reg)) with (pseudonymMapping reg) at 1.
  destruct (pseudonymMapping reg !! x) as [p|] eqn:Ex.
  - destruct (truthy p) eqn:Hp; [reflexivity|]. exact Halloc.
  - exact Halloc.
Qed.

End JsRegistry.

Section JsSession.

Implicit Types (reg : registry) (calls : list (jsstring * jsstring))
  (x y ty p : jsstring).

(** A text that names a member of [Object.prototype] is answered with that
    member, and nothing is written. *)
Lemma getPseudonym_member x ty (reg : Js.registry) :
  x ∈ Js.prototype_names -> Js.pseudonymMapping reg !! x = None ->
  Js.getPseudonym x ty reg = (Js.Member x, reg).
Proof.
  intros Hx Hn. unfold Js.getPseudonym.
  rewrite (get_prototype_name _ x Hx Hn). reflexivity.
Qed.

Lemma Js_resolve_all_cons x ty calls (reg : Js.registry) :
  Js.resolve_all ((x, ty) :: calls) reg
  = Js.resolve_all calls (snd (Js.getPseudonym x ty reg)).
Proof. reflexivity. Qed.

Lemma Js_resolve_all_app calls calls' (reg : Js.registry) :
  Js.resolve_all (calls ++ calls') reg
  = Js.resolve_all calls' (Js.resolve_all calls reg).
Proof. unfold Js.resolve_all. apply fold_left_app. Qed.

Lemma embed_empty : embed empty_registry = Js.empty_registry.
Proof. unfold embed, Js.empty_registry. simpl. rewrite fmap_empty. reflexivity. Qed.

Lemma getPseudonym_counter_bound x t reg (k : N) :
  (forall ty, counter_value (pseudonymCounters reg) ty <= k + 1)%N ->
  forall ty,
    (counter_value (pseudonymCounters (snd (getPseudonym x t reg))) ty
     <= k + 1 + 1)%N.
Proof.
  intros H ty. specialize (H ty). unfold getPseudonym.
  assert (Ha : (counter_value (pseudonymCounters (snd (allocate x t reg))) ty
                <= k + 1 + 1)%N).
  { unfold allocate. simpl. rewrite counter_value_insert.
    destruct (decide (t = ty)); lia. }
  destruct (pseudonymMapping reg !! x) as [p|]; [|exact Ha].
  destruct (truthy p); [simpl; lia|exact Ha].
Qed.

Lemma getPseudonym_keeps_names_out x t reg :
  x ∉ Js.prototype_names ->
  (forall y, y ∈ Js.prototype_names -> pseudonymMapping reg !! y = None) ->
  forall y, y ∈ Js.prototype_names ->
    pseudonymMapping (snd (getPseudonym x t reg)) !! y = None.
Proof.
  intros Hx H y Hy. rewrite getPseudonym_other; [apply H, Hy|].
  intros ->. contradiction.
Qed.

(** A session on the objects, and the same session on the own properties
    with the calls on inherited names left out. *)
Lemma resolve_all_embed calls : forall reg (k : N),
  Forall (fun call => snd call ∉ Js.prototype_names) calls ->
  (forall y, y ∈ Js.prototype_names -> pseudonymMapping reg !! y = None) ->
  (forall ty, counter_value (pseudonymCounters reg) ty <= k + 1)%N ->
  (k + N.of_nat (length calls) < 9007199254740992)%N ->
  Js.resolve_all calls (embed reg)
  = embed (resolve_all (ordinary_calls calls) reg).
Proof.
  induction calls as [|[x t] calls IH]; intros reg k Hty Hout Hcnt Hlen;
    [reflexivity|].
  inversion Hty as [|? ? Ht Hty']; subst. simpl in Ht.
  rewrite Js_resolve_all_cons. cbn [ordinary_calls List.filter fst].
  cbn [length] in Hlen.
  destruct (decide (x ∈ Js.prototype_names)) as [Hx|Hx].
  - rewrite getPseudonym_member; [|exact Hx|apply Hout, Hx].
    rewrite bool_decide_eq_false_2 by (intros H; apply H, Hx).
    apply (IH reg k); [assumption..|lia].
  - rewrite (bool_decide_eq_true_2 _ Hx).
    rewrite getPseudonym_embed; [|exact Hx|exact Ht|specialize (Hcnt t); lia].
    rewrite resolve_all_cons. cbn [snd].
    apply (IH _ (k + 1)%N); [assumption| | |lia].
    + apply getPseudonym_keeps_names_out; assumption.
    + apply getPseudonym_counter_bound, Hcnt.
Qed.

Lemma session_on_objects calls :
  Forall (fun call => snd call ∉ Js.prototype_names) calls ->
  (N.of_nat (length calls) < 9007199254740992)%N ->
  Js.resolve_all calls Js.empty_registry
  = embed (resolve_all (ordinary_calls calls) empty_registry).
Proof.
  intros Hty Hlen. rewrite <- embed_empty.
  apply (resolve_all_embed calls empty_registry 0); [exact Hty| | |lia].
  - intros y _. apply lookup_empty.
  - intros ty. unfold counter_value. simpl. rewrite lookup_empty. lia.
Qed.

Lemma first_sightings_bound calls : forall seen ty,
  (first_sightings seen calls ty <= N.of_nat (length calls))%N.
Proof.
  induction calls as [|call calls IH]; intros seen ty; simpl; [lia|].
  specialize (IH (fst call :: seen) ty).
  destruct (decide _); lia.
Qed.

Lemma ordinary_calls_length calls :
  length (ordinary_calls calls) <= length calls.
Proof. apply List.filter_length_le. Qed.

Lemma ordinary_calls_texts calls x :
  x ∈ map fst (ordinary_calls calls) -> x ∈ map fst calls.
Proof.
  rewrite !list_elem_of_In, !in_map_iff.
  intros (c & E & Hc). exists c. split; [exact E|].
  apply List.filter_In in Hc. tauto.
Qed.

End JsSession.

(** X4: the form of the stored pseudonyms.  In a session from module load in
    which no type names a member of [Object.prototype] and fewer than 2^53
    calls are made, every stored pseudonym is a type, an underscore and the
    decimal digits of a number [n], with [n] at least 1 and below the value
    the counter of that type now holds. *)
Theorem stored_pseudonym_is_numbered
    (calls : list (jsstring * jsstring)) (x p : jsstring) :
  Forall (fun call => snd call ∉ Js.prototype_names) calls ->
  (N.of_nat (length calls) < 9007199254740992)%N ->
  Js.pseudonymMapping (Js.resolve_all calls Js.empty_registry) !! x = Some p ->
  exists ty digits n c,
    p = ty ++ u "_" ++ digits
    /\ decimal_value digits = Some n
    /\ (1 <= n)%N /\ (n < c)%N
    /\ Js.pseudonymCounters (Js.resolve_all calls Js.empty_registry) !! ty
       = Some (Js.Num c).
Proof.
  intros Hty Hlen. rewrite (session_on_objects calls Hty Hlen).
  set (reg := resolve_all (ordinary_calls calls) empty_registry).
  cbn [embed Js.pseudonymMapping Js.pseudonymCounters]. intros Hp.
  assert (Hr : reachable reg) by (eexists; reflexivity).
  destruct (proj1 (reachable_invariants reg Hr) x p Hp)
    as (ty & n & -> & H1 & Hlt).
  exists ty, (Number_toString n), n, (counter_value (pseudonymCounters reg) ty).
  split; [reflexivity|]. split; [apply decimal_value_Number_toString|].
  split; [exact H1|]. split; [exact Hlt|].
  rewrite lookup_fmap. unfold counter_value in *.
  destruct (pseudonymCounters reg !! ty) as [c|]; [|lia].
  destruct (N.eqb_spec c 0); [lia|reflexivity].
Qed.

(** The entry of [London] after two texts. *)
Lemma stored_pseudonym_is_numbered_witness :
  exists ty digits n c,
    u "LOC_1" = ty ++ u "_" ++ digits
    /\ decimal_value digits = Some n
    /\ (1 <= n)%N /\ (n < c)%N
    /\ Js.pseudonymCounters
         (Js.resolve_all [(u "JohnSmith", u "PER"); (u "London", u "LOC")]
            Js.empty_registry) !! ty
       = Some (Js.Num c).
Proof.
  apply (stored_pseudonym_is_numbered
           [(u "JohnSmith", u "PER"); (u "London", u "LOC")]
           (u "London") (u "LOC_1")).
  - repeat constructor; vm_compute; intros H;
      repeat (apply elem_of_cons in H as [H|H]; [discriminate H|]);
      inversion H.
  - vm_compute. reflexivity.
  - reflexivity.
Defined.

(** X5: in a session from module load in which no type names a member of
    [Object.prototype] and fewer than 2^53 calls are made, two different
    texts never have the same pseudonym. *)
Theorem distinct_texts_get_distinct_pseudonyms
    (calls : list (jsstring * jsstring)) (x y p q : jsstring) :
  Forall (fun call => snd call ∉ Js.prototype_names) calls ->
  (N.of_nat (length calls) < 9007199254740992)%N ->
  Js.pseudonymMapping (Js.resolve_all calls Js.empty_registry) !! x = Some p ->
  Js.pseudonymMapping (Js.resolve_all calls Js.empty_registry) !! y = Some q ->
  x <> y ->
  p <> q.
Proof.
  intros Hty Hlen. rewrite (session_on_objects calls Hty Hlen).
  set (reg := resolve_all (ordinary_calls calls) empty_registry).
  cbn [embed Js.pseudonymMapping]. intros Hx Hy Hne ->. apply Hne.
  assert (Hr : reachable reg) by (eexists; reflexivity).
  apply (proj2 (reachable_invariants reg Hr) x y q); assumption.
Qed.

(** Two PER texts of one session. *)
Lemma distinct_texts_get_distinct_pseudonyms_witness :
  u "PER_1" <> u "PER_2".
Proof.
  apply (distinct_texts_get_distinct_pseudonyms
           [(u "JohnSmith", u "PER"); (u "JaneDoe", u "PER")]
           (u "JohnSmith") (u "JaneDoe") (u "PER_1") (u "PER_2")).
  - repeat constructor; vm_compute; intros H;
      repeat (apply elem_of_cons in H as [H|H]; [discriminate H|]);
      inversion H.
  - vm_compute. reflexivity.
  - reflexivity.
  - reflexivity.
  - discriminate.
Defined.

(** X20: the number a new text receives.  Take a session from module load
    in which no type names a member of [Object.prototype] and which, the
    next call included, has fewer than 2^53 calls.  A text not resolved
    before that names no such member either, resolved under [ty], receives
    [ty], an underscore and the decimal digits of [n], where [n] is one more
    than the number of earlier calls that were the first sight of their
    text, were made under [ty] and were not answered from
    [Object.prototype]; the counter of [ty] then stands at [n + 1]. *)
Theorem fresh_text_gets_next_number
    (calls : list (jsstring * jsstring)) (text ty : jsstring) :
  Forall (fun call => snd call ∉ Js.prototype_names) calls ->
  ty ∉ Js.prototype_names ->
  text ∉ Js.prototype_names ->
  (N.of_nat (S (length calls)) < 9007199254740992)%N ->
  text ∉ map fst calls ->
  exists digits,
    fst (Js.getPseudonym text ty (Js.resolve_all calls Js.empty_registry))
    = Js.Str (ty ++ u "_" ++ digits)
    /\ decimal_value digits
       = Some (first_sightings [] (ordinary_calls calls) ty + 1)%N
    /\ Js.pseudonymCounters
         (snd (Js.getPseudonym text ty
                 (Js.resolve_all calls Js.empty_registry))) !! ty
       = Some (Js.Num (first_sightings [] (ordinary_calls calls) ty + 2)).
Proof.
  intros Htys Hty Htext Hlen Hnew.
  rewrite (session_on_objects calls Htys) by lia.
  set (ocalls := ordinary_calls calls).
  pose proof (session_state_resolve_all ocalls [] 0 ty empty_registry
                (session_state_empty ty)) as (Hout & _ & Hcnt).
  rewrite app_nil_r, N.add_0_l in *.
  pose proof (first_sightings_bound ocalls [] ty) as Hb.
  pose proof (ordinary_calls_length calls) as Hl. fold ocalls in Hl.
  assert (Hmiss : pseudonymMapping (resolve_all ocalls empty_registry) !! text
                  = None).
  { apply Hout. rewrite elem_of_rev. intros H. apply Hnew.
    apply ordinary_calls_texts, H. }
  rewrite getPseudonym_embed; [|exact Htext|exact Hty|lia].
  rewrite (getPseudonym_miss _ _ _ Hmiss). unfold allocate.
  cbn [fst snd embed Js.pseudonymCounters pseudonymCounters].
  rewrite Hcnt.
  exists (Number_toString (first_sightings [] ocalls ty + 1)).
  split; [reflexivity|]. split; [apply decimal_value_Number_toString|].
  rewrite lookup_fmap, lookup_insert_eq. simpl. do 2 f_equal. lia.
Qed.

(** The third new PER text of a session gets [PER_3]; the call with the
    text [constructor] in between has not counted. *)
Lemma fresh_text_gets_next_number_witness :
  exists digits,
    fst (Js.getPseudonym (u "AnnLee") (u "PER")
           (Js.resolve_all
              [(u "JohnSmith", u "PER"); (u "London", u "LOC");
               (u "constructor", u "PER"); (u "JohnSmith", u "PER");
               (u "JaneDoe", u "PER")]
              Js.empty_registry))
    = Js.Str (u "PER" ++ u "_" ++ digits)
    /\ decimal_value digits = Some 3%N.
Proof.
  destruct (fresh_text_gets_next_number
              [(u "JohnSmith", u "PER"); (u "London", u "LOC");
               (u "constructor", u "PER"); (u "JohnSmith", u "PER");
               (u "JaneDoe", u "PER")]
              (u "AnnLee") (u "PER")) as (digits & H1 & H2 & _).
  - repeat constructor; vm_compute; intros H;
      repeat (apply elem_of_cons in H as [H|H]; [discriminate H|]);
      inversion H.
  - vm_compute; intros H;
      repeat (apply elem_of_cons in H as [H|H]; [discriminate H|]);
      inversion H.
  - vm_compute; intros H;
      repeat (apply elem_of_cons in H as [H|H]; [discriminate H|]);
      inversion H.
  - vm_compute. reflexivity.
  - vm_compute; intros H;
      repeat (apply elem_of_cons in H as [H|H]; [discriminate H|]);
      inversion H.
  - exists digits. split; [exact H1|exact H2].
Defined.

Section JsPipeline.

Variable RegExp : jsstring -> option regex.
Variable compiles : regex -> bool.
Variable call_member : jsstring -> jsstring -> option jsstring.

Implicit Types (reg : Js.registry) (calls : list (jsstring * jsstring))
  (merged : list span) (x y ty p txt : jsstring).

Lemma Js_getPseudonym_other x ty reg y :
  x <> y ->
  Js.pseudonymMapping (snd (Js.getPseudonym x ty reg)) !! y
  = Js.pseudonymMapping reg !! y.
Proof.
  intros ne. unfold Js.getPseudonym.
  destruct (match Js.get (Js.pseudonymMapping reg) x with
            | Js.Own p => if truthy p then Some (Js.Str p) else None
            | Js.Inherited => Some (Js.Member x)
            | Js.Undefined => None
            end); [reflexivity|].
  cbn [snd Js.pseudonymMapping]. unfold Js.put.
  destruct (bool_decide (x = u "__proto__")); [reflexivity|].
  apply lookup_insert_ne, ne.
Qed.

(** A text that names no member of [Object.prototype] is afterwards stored
    with the string returned, which is not empty. *)
Lemma Js_getPseudonym_stored x ty reg :
  x ∉ Js.prototype_names ->
  exists p,
    fst (Js.getPseudonym x ty reg) = Js.Str p
    /\ Js.pseudonymMapping (snd (Js.getPseudonym x ty reg)) !! x = Some p
    /\ truthy p = true.
Proof.
  intros Hx. unfold Js.getPseudonym. rewrite (get_own_name _ x Hx).
  assert (Ht : forall s, truthy (ty ++ 95%N :: s) = true)
    by (intros s; destruct ty; reflexivity).
  destruct (Js.pseudonymMapping reg !! x) as [p|] eqn:E.
  - destruct (truthy p) eqn:Hp.
    + exists p. auto.
    + eexists. cbn [fst snd Js.pseudonymMapping].
      rewrite (put_own_name _ x _ Hx), lookup_insert_eq.
      split; [reflexivity|]. split; [reflexivity|apply Ht].
  - eexists. cbn [fst snd Js.pseudonymMapping].
    rewrite (put_own_name _ x _ Hx), lookup_insert_eq.
    split; [reflexivity|]. split; [reflexivity|apply Ht].
Qed.

(** No call overwrites or removes a stored pseudonym. *)
Lemma Js_getPseudonym_preserves x ty reg y q :
  Js.pseudonymMapping reg !! y = Some q -> truthy q = true ->
  Js.pseudonymMapping (snd (Js.getPseudonym x ty reg)) !! y = Some q.
Proof.
  intros Hy Hq. destruct (decide (x = y)) as [->|ne].
  - unfold Js.getPseudonym, Js.get.
    destruct (bool_decide (y = u "__proto__")); [exact Hy|].
    rewrite Hy. cbn iota. rewrite Hq. exact Hy.
  - rewrite Js_getPseudonym_other by exact ne. exact Hy.
Qed.

Lemma Js_resolve_all_preserves calls : forall reg y q,
  Js.pseudonymMapping reg !! y = Some q -> truthy q = true ->
  Js.pseudonymMapping (Js.resolve_all calls reg) !! y = Some q.
Proof.
  induction calls as [|[x ty] calls IH]; intros reg y q Hy Hq; [exact Hy|].
  rewrite Js_resolve_all_cons. apply IH; [|exact Hq].
  apply Js_getPseudonym_preserves; assumption.
Qed.

Lemma Js_resolve_all_registers calls x ty : forall reg,
  In (x, ty) calls -> x ∉ Js.prototype_names ->
  exists p, Js.pseudonymMapping (Js.resolve_all calls reg) !! x = Some p
            /\ truthy p = true.
Proof.
  induction calls as [|[y t] calls IH]; intros reg Hin Hx; [destruct Hin|].
  rewrite Js_resolve_all_cons. destruct Hin as [[= -> ->]|Hin].
  - destruct (Js_getPseudonym_stored x ty reg Hx) as (p & _ & Hs & Ht).
    exists p. split; [|exact Ht].
    apply Js_resolve_all_preserves; assumption.
  - apply IH; assumption.
Qed.

(** Replacement by a string never throws, and is the replacement of the
    total function. *)
Lemma Js_replace_loop_string r p : forall s before skip,
  Js.replace_loop call_member r (Js.Str p) before skip s
  = Some (replace_loop r p before skip s).
Proof.
  induction s as [|d s IH]; intros before skip.
  - simpl. destruct (match_here r []); reflexivity.
  - cbn [Js.replace_loop replace_loop Js.substitution].
    destruct skip as [|k]; [|apply IH].
    destruct (match_here r (d :: s)) as [[|k]|]; rewrite IH; reflexivity.
Qed.

Lemma Js_replace_string r p s :
  compiles r = true ->
  Js.replace compiles call_member r (Js.Str p) s = Some (replace r p s).
Proof.
  intros H. unfold Js.replace, replace. rewrite H.
  apply Js_replace_loop_string.
Qed.

Abbreviation loop := (Js.anonymize_loop RegExp compiles call_member).

Lemma Js_anonymize_loop_skip obj rest txt reg :
  buildFuzzyRegex RegExp (text obj) = None ->
  loop (obj :: rest) txt reg
  = loop rest txt
      (if truthy (text obj)
       then snd (Js.getPseudonym (text obj) (type obj) reg)
       else reg).
Proof.
  intros Hnone. cbn [Js.anonymize_loop].
  destruct (truthy (text obj)); cbn [negb]; [|reflexivity].
  destruct (Js.getPseudonym (text obj) (type obj) reg) as [v reg'].
  rewrite Hnone. reflexivity.
Qed.

(** The registry the loop leaves: every span resolved, in order, when the
    loop ends; the spans up to the one whose replacement threw, that one
    included, when it is left by an exception. *)
Lemma Js_anonymize_loop_registry merged : forall txt reg,
  Forall (fun sp => text sp <> []) merged ->
  (fst (loop merged txt reg) <> None ->
   snd (loop merged txt reg) = Js.resolve_all (calls_of merged) reg)
  /\ (fst (loop merged txt reg) = None ->
      exists done obj rest fuzzyRegex,
        merged = done ++ obj :: rest
        /\ buildFuzzyRegex RegExp (text obj) = Some fuzzyRegex
        /\ snd (loop merged txt reg)
           = Js.resolve_all (calls_of (done ++ [obj])) reg).
Proof.
  induction merged as [|obj rest IH]; intros txt reg Hne.
  - split; [reflexivity|]. simpl. discriminate.
  - inversion Hne as [|? ? Hobj Hrest]; subst.
    apply truthy_true in Hobj.
    cbn [Js.anonymize_loop calls_of map]. rewrite Hobj. cbn [negb].
    rewrite Js_resolve_all_cons.
    destruct (Js.getPseudonym (text obj) (type obj) reg) as [v reg'] eqn:Eg.
    cbn [snd].
    assert (Hstep : forall t,
      (fst (loop rest t reg') <> None ->
       snd (loop rest t reg') = Js.resolve_all (calls_of rest) reg')
      /\ (fst (loop rest t reg') = None ->
          exists done obj0 rest0 fuzzyRegex,
            obj :: rest = done ++ obj0 :: rest0
            /\ buildFuzzyRegex RegExp (text obj0) = Some fuzzyRegex
            /\ snd (loop rest t reg')
               = Js.resolve_all (calls_of (done ++ [obj0]))
                   reg)).
    { intros t. destruct (IH t reg' Hrest) as [H1 H2]. split; [exact H1|].
      intros Hn. destruct (H2 Hn) as (done & obj0 & rest0 & re & -> & Hre & Hs).
      exists (obj :: done), obj0, rest0, re.
      split; [reflexivity|]. split; [exact Hre|].
      rewrite Hs. cbn [app calls_of map]. rewrite Js_resolve_all_cons, Eg.
      reflexivity. }
    destruct (buildFuzzyRegex RegExp (text obj)) as [re|] eqn:Ere;
      [|apply Hstep].
    destruct (Js.replace compiles call_member re v txt) as [t|];
      [apply Hstep|].
    split; [intros H; destruct (H eq_refl)|]. intros _.
    exists [], obj, rest, re. split; [reflexivity|]. split; [exact Ere|].
    cbn [app calls_of map snd]. rewrite Js_resolve_all_cons, Eg. reflexivity.
Qed.


(** Whether it returns or throws, [anonymizeText] leaves the registry of a
    session continued. *)
Lemma Js_anonymizeText_session ner txt reg :
  exists calls,
    snd (Js.anonymizeText ner RegExp compiles call_member txt reg)
    = Js.resolve_all calls reg.
Proof.
  unfold Js.anonymizeText.
  destruct (Js_anonymize_loop_registry (aggressiveMergeTokens (ner txt)) txt
              reg (merged_texts_nonempty (ner txt))) as [H1 H2].
  destruct (fst (loop (aggressiveMergeTokens (ner txt)) txt reg)) eqn:E.
  - eexists. apply H1. discriminate.
  - destruct (H2 eq_refl) as (done & obj & rest & re & _ & _ & Hs).
    eexists. exact Hs.
Qed.

End JsPipeline.

(** C8, as the code has it: the builder has no span-length cap, and it
    returns null in two cases only.  Whatever the engine and whatever the
    length of the span text, a text with a word character has its pattern
    handed to the constructor; the builder returns null exactly when the
    stripped text is empty or the constructor throws.  For a span with a
    null pattern the loop goes on to the remaining spans with the working
    text untouched, the pseudonym of the span having been registered
    before. *)
Theorem null_pattern_skips_only_that_span
    (RegExp : jsstring -> option regex) (compiles : regex -> bool)
    (call_member : jsstring -> jsstring -> option jsstring)
    (obj : span) (rest : list span) (txt : jsstring) (reg : Js.registry) :
  buildFuzzyRegex RegExp (text obj) = None ->
  Js.anonymize_loop RegExp compiles call_member (obj :: rest) txt reg
  = Js.anonymize_loop RegExp compiles call_member rest txt
      (if truthy (text obj)
       then snd (Js.getPseudonym (text obj) (type obj) reg)
       else reg)
  /\ (forall s,
        buildFuzzyRegex RegExp s = None
        <-> keep Char.is_word s = []
            \/ RegExp (flat_map (fun c => c :: class_star)
                         (keep Char.is_word s)) = None)
  /\ (forall s,
        keep Char.is_word s <> [] ->
        buildFuzzyRegex RegExp s
        = RegExp (flat_map (fun c => c :: class_star) (keep Char.is_word s))).
Proof.
  intros Hnone. split; [|split].
  - apply Js_anonymize_loop_skip, Hnone.
  - intros s. rewrite buildFuzzyRegex_unfold.
    destruct (keep Char.is_word s) as [|c w].
    + split; [left; reflexivity|reflexivity].
    + split; [right; assumption|]. intros [H|H]; [discriminate H|exact H].
  - intros s Hs. rewrite buildFuzzyRegex_unfold.
    destruct (keep Char.is_word s); [congruence|reflexivity].
Qed.

(** A span of a full stop alone has no word character: it is skipped and
    the loop goes on with [London]. *)
Lemma null_pattern_skips_only_that_span_witness :
  Js.anonymize_loop RegExp_ig (fun _ => true) (fun _ _ => None)
    [Span (u "PER") (u "."); Span (u "LOC") (u "London")]
    (u "Mr. X works in London") Js.empty_registry
  = Js.anonymize_loop RegExp_ig (fun _ => true) (fun _ _ => None)
      [Span (u "LOC") (u "London")]
      (u "Mr. X works in London")
      (snd (Js.getPseudonym (u ".") (u "PER") Js.empty_registry)).
Proof.
  refine (proj1 (null_pattern_skips_only_that_span RegExp_ig (fun _ => true)
                   (fun _ _ => None) (Span (u "PER") (u "."))
                   [Span (u "LOC") (u "London")]
                   (u "Mr. X works in London") Js.empty_registry _)).
  reflexivity.
Defined.


(** X8: after [anonymizeText] has returned, every merged span whose text
    names no member of [Object.prototype] has its text in the mapping, with
    a non-empty pseudonym; and a second call of [anonymizeText], on any text
    and whether it returns or throws, leaves that pseudonym as it is. *)
Theorem spans_stay_registered
    (ner : jsstring -> option (list prediction))
    (RegExp : jsstring -> option regex) (compiles : regex -> bool)
    (call_member : jsstring -> jsstring -> option jsstring)
    (txt txt' : jsstring) (reg : Js.registry) (sp : span) :
  fst (Js.anonymizeText ner RegExp compiles call_member txt reg) <> None ->
  In sp (aggressiveMergeTokens (ner txt)) ->
  text sp ∉ Js.prototype_names ->
  exists p,
    truthy p = true
    /\ Js.pseudonymMapping
         (snd (Js.anonymizeText ner RegExp compiles call_member txt reg))
         !! text sp = Some p
    /\ Js.pseudonymMapping
         (snd (Js.anonymizeText ner RegExp compiles call_member txt'
                 (snd (Js.anonymizeText ner RegExp compiles call_member
                         txt reg)))) !! text sp
       = Some p.
Proof.
  intros Hret Hsp Hx.
  destruct (Js_anonymizeText_session RegExp compiles call_member ner txt'
              (snd (Js.anonymizeText ner RegExp compiles call_member txt reg)))
    as [calls ->].
  assert (E : snd (Js.anonymizeText ner RegExp compiles call_member txt reg)
              = Js.resolve_all (calls_of (aggressiveMergeTokens (ner txt))) reg).
  { apply (Js_anonymize_loop_registry RegExp compiles call_member
             (aggressiveMergeTokens (ner txt)) txt reg
             (merged_texts_nonempty (ner txt))), Hret. }
  rewrite E.
  destruct (Js_resolve_all_registers
              (calls_of (aggressiveMergeTokens (ner txt)))
              (text sp) (type sp) reg) as (p & Hp & Ht).
  { apply (in_map (fun s => (text s, type s))), Hsp. }
  { exact Hx. }
  exists p. split; [exact Ht|]. split; [exact Hp|].
  apply Js_resolve_all_preserves; assumption.
Qed.

(** Two cells of one document, the second naming [London] only. *)
Lemma spans_stay_registered_witness :
  exists p,
    truthy p = true
    /\ Js.pseudonymMapping
         (snd (Js.anonymizeText (fun _ => Some continuity_stream) RegExp_ig
                 (fun _ => true) (fun _ _ => None)
                 (u "John Smith works in London") Js.empty_registry))
         !! u "JohnSmith" = Some p
    /\ Js.pseudonymMapping
         (snd (Js.anonymizeText (fun _ => Some continuity_stream) RegExp_ig
                 (fun _ => true) (fun _ _ => None)
                 (u "London calling")
                 (snd (Js.anonymizeText (fun _ => Some continuity_stream)
                         RegExp_ig (fun _ => true) (fun _ _ => None)
                         (u "John Smith works in London")
                         Js.empty_registry))))
         !! u "JohnSmith" = Some p.
Proof.
  apply (spans_stay_registered (fun _ => Some continuity_stream) RegExp_ig
           (fun _ => true) (fun _ _ => None)
           (u "John Smith works in London") (u "London calling")
           Js.empty_registry (Span (u "PER") (u "JohnSmith"))).
  - vm_compute. discriminate.
  - left. reflexivity.
  - vm_compute. intros H.
    repeat (apply elem_of_cons in H as [H|H]; [discriminate H|]).
    inversion H.
Defined.

Section JsRefinement.

Variable RegExp : jsstring -> option regex.
Variable compiles : regex -> bool.
Variable call_member : jsstring -> jsstring -> option jsstring.

Lemma Js_names_unmapped calls : forall reg : Js.registry,
  (forall y, y ∈ Js.prototype_names -> Js.pseudonymMapping reg !! y = None) ->
  forall y, y ∈ Js.prototype_names ->
    Js.pseudonymMapping (Js.resolve_all calls reg) !! y = None.
Proof.
  induction calls as [|[x ty] calls IH]; intros reg H; [exact H|].
  rewrite Js_resolve_all_cons. apply IH. intros y Hy.
  destruct (decide (x ∈ Js.prototype_names)) as [Hx|Hx].
  - rewrite getPseudonym_member; [apply H, Hy|exact Hx|apply H, Hx].
  - rewrite Js_getPseudonym_other; [apply H, Hy|].
    intros ->. contradiction.
Qed.

(** On spans whose texts and types name no member of [Object.prototype],
    with an engine that compiles every pattern and counters below 2^53, the
    loop ends, with the text and the registry computed on the own
    properties. *)
Lemma anonymize_loop_embed (merged : list span) :
  forall (txt : jsstring) (reg : registry) (k : N),
  (forall r, compiles r = true) ->
  Forall (fun sp => (text sp ∉ Js.prototype_names)
                    /\ (type sp ∉ Js.prototype_names)) merged ->
  (forall y, y ∈ Js.prototype_names -> pseudonymMapping reg !! y = None) ->
  (forall ty, counter_value (pseudonymCounters reg) ty <= k + 1)%N ->
  (k + N.of_nat (length merged) < 9007199254740992)%N ->
  Js.anonymize_loop RegExp compiles call_member merged txt (embed reg)
  = (Some (fst (anonymize_loop RegExp merged (txt, reg))),
     embed (snd (anonymize_loop RegExp merged (txt, reg)))).
Proof.
  induction merged as [|obj rest IH]; intros txt reg k Hc Hall Hout Hcnt Hlen;
    [reflexivity|].
  inversion Hall as [|? ? [Hx Hty] Hrest]; subst. cbn [length] in Hlen.
  rewrite anonymize_loop_cons. cbn [Js.anonymize_loop anonymize_body].
  destruct (truthy (text obj)) eqn:Ht; cbn [negb].
  - rewrite getPseudonym_embed; [|exact Hx|exact Hty|specialize (Hcnt (type obj)); lia].
    pose proof (getPseudonym_keeps_names_out (text obj) (type obj) reg Hx Hout)
      as Hout'.
    pose proof (getPseudonym_counter_bound (text obj) (type obj) reg k Hcnt)
      as Hcnt'.
    destruct (getPseudonym (text obj) (type obj) reg) as [p reg'].
    cbn [fst snd] in *.
    destruct (buildFuzzyRegex RegExp (text obj)) as [re|].
    + rewrite (Js_replace_string compiles call_member re p txt (Hc re)).
      apply (IH _ _ (k + 1)%N); [assumption..|lia].
    + apply (IH _ _ (k + 1)%N); [assumption..|lia].
  - apply (IH _ _ k); [assumption..|lia].
Qed.

End JsRefinement.

(** C6 at its input: the registries are plain objects, and a text that
    names a member of [Object.prototype] is found there.  For the text
    [constructor], resolved under PER in the registry at module load, the
    code returns the member, the function [Object], and not [PER_1]; it
    stores nothing and counts nothing, and so it does for every such name in
    every session.  The counters have the same defect and one more: a type
    of such a name is numbered [NaN], under [__proto__] every time, and a
    counter that has reached 2^53 is not incremented, so that two texts
    receive one number. *)
Theorem inherited_name_gets_no_pseudonym :
  Js.getPseudonym (u "constructor") (u "PER") Js.empty_registry
  = (Js.Member (u "constructor"), Js.empty_registry)
  /\ (forall calls name ty,
        name ∈ Js.prototype_names ->
        Js.getPseudonym name ty (Js.resolve_all calls Js.empty_registry)
        = (Js.Member name, Js.resolve_all calls Js.empty_registry))
  /\ fst (Js.getPseudonym (u "Ann") (u "constructor") Js.empty_registry)
     = Js.Str (u "constructor_NaN")
  /\ (let reg := snd (Js.getPseudonym (u "Ann") (u "__proto__")
                        Js.empty_registry) in
      fst (Js.getPseudonym (u "Ann") (u "__proto__") Js.empty_registry)
      = Js.Str (u "__proto___NaN")
      /\ fst (Js.getPseudonym (u "Bob") (u "__proto__") reg)
         = Js.Str (u "__proto___NaN"))
  /\ (let reg := Js.Registry {[ u "PER" := Js.Num 9007199254740992 ]} ∅ in
      fst (Js.getPseudonym (u "Ann") (u "PER") reg)
      = Js.Str (u "PER_9007199254740992")
      /\ fst (Js.getPseudonym (u "Bob") (u "PER")
                (snd (Js.getPseudonym (u "Ann") (u "PER") reg)))
         = Js.Str (u "PER_9007199254740992")).
Proof.
  split; [reflexivity|]. split.
  - intros calls name ty Hname. apply getPseudonym_member; [exact Hname|].
    apply Js_names_unmapped; [|exact Hname].
    intros y _. apply lookup_empty.
  - split; [reflexivity|]. split.
    + split; reflexivity.
    + split; vm_compute; reflexivity.
Qed.

(** ** Further properties of the patterns *)

Section PatternsMore.

Implicit Types (r : regex) (c d : N) (s w : jsstring) (n : nat).

Lemma in_range_true lo hi c :
  Char.in_range lo hi c = true <-> (lo <= c <= hi)%N.
Proof.
  unfold Char.in_range. rewrite andb_true_iff, !N.leb_le. tauto.
Qed.

Lemma is_alnum_lower c : Char.is_lower c = true -> Char.is_alnum c = true.
Proof. intros H. unfold Char.is_alnum. rewrite H. reflexivity. Qed.

Lemma is_alnum_upper c : Char.is_upper c = true -> Char.is_alnum c = true.
Proof.
  intros H. unfold Char.is_alnum. rewrite H, orb_true_r. reflexivity.
Qed.

(** Letter case does not lead out of the letters and digits. *)
Lemma canonical_alnum c d :
  Char.canonicalize c = Char.canonicalize d ->
  Char.is_alnum c = true -> Char.is_alnum d = true.
Proof.
  unfold Char.canonicalize. intros H Hc.
  destruct (Char.is_lower d) eqn:Ld; [apply is_alnum_lower, Ld|].
  destruct (Char.is_lower c) eqn:Lc; [|subst d; exact Hc].
  apply is_alnum_upper. unfold Char.is_lower, Char.is_upper in *.
  apply in_range_true in Lc. apply in_range_true. lia.
Qed.

Lemma star_takes_separators r (seps rest : jsstring) n :
  Forall (fun d => Char.is_alnum d = false) seps ->
  rest = [] \/ (exists a t, rest = a :: t /\ Char.is_alnum a = true) ->
  match_here r rest = Some n ->
  match_here (StarNotAlnum :: r) (seps ++ rest) = Some (length seps + n).
Proof.
  intros Hseps Hrest Hn.
  induction Hseps as [|d seps Hd _ IH]; cbn [app length Nat.add].
  - destruct Hrest as [->|(a & t & -> & Ha)].
    + exact Hn.
    + apply match_star_alnum_ok; assumption.
  - apply match_star_sep_ok; assumption.
Qed.

Lemma written_out_head (parts : list (N * jsstring)) w (tail : jsstring) :
  spells parts w ->
  Forall (fun c => Char.is_alnum c = true) w ->
  tail = [] \/ (exists a t, tail = a :: t /\ Char.is_alnum a = true) ->
  written_out parts ++ tail = []
  \/ exists a t, written_out parts ++ tail = a :: t /\ Char.is_alnum a = true.
Proof.
  intros Hs Hw Ht. destruct Hs as [|[d seps] c parts w [Hc _] _].
  - exact Ht.
  - right. exists d, (seps ++ written_out parts ++ tail).
    split; [simpl; rewrite <- app_assoc; reflexivity|].
    inversion Hw; subst. apply (canonical_alnum c d); assumption.
Qed.

Lemma fuzzy_nodes_match_spelling (parts : list (N * jsstring)) w
    (tail : jsstring) :
  spells parts w ->
  Forall (fun c => Char.is_alnum c = true) w ->
  tail = [] \/ (exists a t, tail = a :: t /\ Char.is_alnum a = true) ->
  match_here (fuzzy_nodes w) (written_out parts ++ tail)
  = Some (length (written_out parts)).
Proof.
  intros Hs Hw Ht.
  induction Hs as [|[d seps] c parts w [Hc Hseps] Hs IH]; [reflexivity|].
  inversion Hw as [|? ? Hca Hw']; subst.
  cbn [fuzzy_nodes flat_map written_out fst snd app length].
  apply match_lit_ok; [exact Hc|].
  rewrite <- app_assoc, length_app.
  apply star_takes_separators; [exact Hseps| |apply IH, Hw'].
  apply (written_out_head parts w tail); assumption.
Qed.

Lemma keep_cons (cls : N -> bool) d s :
  keep cls (d :: s) = if cls d then d :: keep cls s else keep cls s.
Proof. reflexivity. Qed.

Lemma keep_app (cls : N -> bool) (a b : jsstring) :
  keep cls (a ++ b) = keep cls a ++ keep cls b.
Proof. apply List.filter_app. Qed.

Lemma keep_alnum_nil (seps : jsstring) :
  Forall (fun d => Char.is_alnum d = false) seps ->
  keep Char.is_alnum seps = [].
Proof. apply keep_nil_iff. Qed.

Lemma take_add_drop (k m : nat) (l : jsstring) :
  take (k + m) l = take k l ++ take m (drop k l).
Proof.
  revert l. induction k as [|k IH]; intros [|d l]; simpl;
    rewrite ?take_nil; try reflexivity.
  rewrite IH. reflexivity.
Qed.

(** What a star took in a match: a run of separators. *)
Lemma star_inversion r s m :
  match_here (StarNotAlnum :: r) s = Some m ->
  exists k m',
    m = k + m'
    /\ Forall (fun d => Char.is_alnum d = false) (take k s)
    /\ match_here r (drop k s) = Some m'.
Proof.
  revert m. induction s as [|d s IH]; intros m H.
  - exists 0, m. repeat split; [constructor|exact H].
  - destruct (Char.is_alnum d) eqn:Hd.
    + rewrite match_here_star_alnum in H by exact Hd.
      exists 0, m. repeat split; [constructor|exact H].
    + rewrite match_here_star_sep in H by exact Hd.
      destruct (match_here (StarNotAlnum :: r) s) as [j|] eqn:Hj.
      * injection H as <-.
        destruct (IH j eq_refl) as (k & m' & -> & Hk & Hm).
        exists (S k), m'. repeat split; [constructor; assumption|exact Hm].
      * exists 0, m. repeat split; [constructor|exact H].
Qed.

Lemma fuzzy_nodes_match_spells w : forall s n,
  Forall (fun c => Char.is_alnum c = true) w ->
  match_here (fuzzy_nodes w) s = Some n ->
  map Char.canonicalize (keep Char.is_alnum (take n s))
  = map Char.canonicalize w.
Proof.
  induction w as [|c w IH]; intros s n Hw H.
  - injection H as <-. reflexivity.
  - inversion Hw as [|? ? Hc Hw']; subst.
    change (fuzzy_nodes (c :: w))
      with (Lit c :: StarNotAlnum :: fuzzy_nodes w) in H.
    destruct s as [|d s]; [simpl in H; discriminate H|].
    destruct (N.eq_dec (Char.canonicalize c) (Char.canonicalize d)) as [e|ne];
      [|rewrite match_here_lit_fail in H by exact ne; discriminate H].
    rewrite match_here_lit in H by exact e.
    destruct (match_here (StarNotAlnum :: fuzzy_nodes w) s) as [m|] eqn:Hm;
      simpl in H; [|discriminate H].
    injection H as <-.
    apply star_inversion in Hm as (k & m' & -> & Hk & Hm).
    change (take (S (k + m')) (d :: s)) with (d :: take (k + m') s).
    rewrite keep_cons, (canonical_alnum c d e Hc), take_add_drop, keep_app.
    rewrite (keep_alnum_nil _ Hk). cbn [app map].
    rewrite e. f_equal. apply IH; assumption.
Qed.

End PatternsMore.

(** X11: fuzzy tolerance in general.  For a span text with a word
    character and no underscore, the pattern matches every way of writing
    its letters and digits: in either letter case, each followed by any run
    of characters that are not letters or digits; the match covers the whole
    of it when the text ends there or goes on with a letter or digit. *)
Theorem fuzzy_pattern_matches_every_spelling
    (mergedString : jsstring) (parts : list (N * jsstring))
    (tail : jsstring) :
  95%N ∉ mergedString ->
  parts <> [] ->
  spells parts (keep Char.is_word mergedString) ->
  tail = [] \/ (exists a t, tail = a :: t /\ Char.is_alnum a = true) ->
  exists r,
    buildFuzzyRegex RegExp_ig mergedString = Some r
    /\ match_here r (written_out parts ++ tail)
       = Some (length (written_out parts)).
Proof.
  intros Hu Hparts Hs Ht.
  exists (fuzzy_nodes (keep Char.is_word mergedString)). split.
  - rewrite buildFuzzyRegex_ig.
    destruct (keep Char.is_word mergedString); [|reflexivity].
    inversion Hs; subst. congruence.
  - apply fuzzy_nodes_match_spelling; [exact Hs| |exact Ht].
    apply List.Forall_forall. intros c Hc.
    apply filter_In in Hc as [Hin Hw].
    unfold Char.is_word in Hw. apply orb_true_iff in Hw as [Hw|Hw];
      [exact Hw|].
    apply N.eqb_eq in Hw. subst c. exfalso. apply Hu.
    apply list_elem_of_In, Hin.
Qed.

(** [Ann-Lee] written [aNN  lEe.] and followed by a digit. *)
Lemma fuzzy_pattern_matches_every_spelling_witness :
  exists r,
    buildFuzzyRegex RegExp_ig (u "Ann-Lee") = Some r
    /\ match_here r (u "aNN  lEe.7") = Some 9.
Proof.
  apply (fuzzy_pattern_matches_every_spelling (u "Ann-Lee")
           [(97, []); (78, []); (78, [32; 32]); (108, []); (69, []);
            (101, [46])]%N
           (u "7")).
  - vm_compute. intros H.
    repeat (apply elem_of_cons in H as [H|H]; [discriminate H|]).
    inversion H.
  - discriminate.
  - repeat constructor.
  - right. exists 55%N, []. split; reflexivity.
Defined.

(** X12: a fuzzy pattern matches nothing but spellings of its span text.
    For a span text without underscore, the letters and digits of whatever
    the pattern matches are, up to letter case, the letters and digits of
    the span text, in order. *)
Theorem fuzzy_match_spells_the_span_text
    (mergedString subject : jsstring) (r : regex) (n : nat) :
  95%N ∉ mergedString ->
  buildFuzzyRegex RegExp_ig mergedString = Some r ->
  match_here r subject = Some n ->
  map Char.canonicalize (keep Char.is_alnum (take n subject))
  = map Char.canonicalize (keep Char.is_alnum mergedString)
  /\ 1 <= n <= length subject.
Proof.
  intros Hu Hr Hm. rewrite buildFuzzyRegex_ig in Hr.
  assert (Hw : keep Char.is_word mergedString
               = keep Char.is_alnum mergedString).
  { unfold keep. apply filter_ext_in. intros c Hc. unfold Char.is_word.
    destruct (N.eqb_spec c 95) as [->|_]; [|apply orb_false_r].
    exfalso. apply Hu, list_elem_of_In, Hc. }
  destruct (keep Char.is_word mergedString) as [|c w] eqn:E;
    [discriminate Hr|].
  injection Hr as <-. split.
  - rewrite <- Hw. apply fuzzy_nodes_match_spells; [|exact Hm].
    rewrite Hw. apply List.Forall_forall. intros a Ha.
    apply filter_In in Ha. tauto.
  - split; [|apply (match_here_bound _ _ _ Hm)].
    destruct subject as [|d s]; [discriminate Hm|].
    simpl in Hm. destruct (_ =? _)%N; [|discriminate Hm].
    destruct n; [|lia].
    destruct ((fix star (s0 : jsstring) : option nat := _) s);
      discriminate Hm.
Qed.

(** The match of the pattern of [Ann-Lee] at the head of [aNN  lEe.7]. *)
Lemma fuzzy_match_spells_the_span_text_witness :
  map Char.canonicalize (keep Char.is_alnum (take 9 (u "aNN  lEe.7")))
  = map Char.canonicalize (keep Char.is_alnum (u "Ann-Lee"))
  /\ 1 <= 9 <= length (u "aNN  lEe.7").
Proof.
  apply (fuzzy_match_spells_the_span_text (u "Ann-Lee") (u "aNN  lEe.7")
           (fuzzy_nodes (u "AnnLee")) 9).
  - vm_compute. intros H.
    repeat (apply elem_of_cons in H as [H|H]; [discriminate H|]).
    inversion H.
  - reflexivity.
  - reflexivity.
Defined.

(** ** processFile, generateOutputFileName and validateFileType *)

Section FileProcessorFacts.

Variable extname : jsstring -> jsstring.
Variable basename : jsstring -> jsstring -> jsstring.
Variable toLowerCase : jsstring -> jsstring.
Variable readFileSync : jsstring -> option jsstring.
Variable readWorkbook : jsstring -> option workbook.
Variable extractRawText : jsstring -> option jsstring.
Variable pdfParse : jsstring -> option jsstring.
Variable ner : jsstring -> option (list prediction).
Variable RegExp : jsstring -> option regex.

Lemma for_each_state {A S : Type} (f : A -> S -> A * S) (P : S -> Prop) :
  (forall a s, P s -> P (snd (f a s))) ->
  forall l s, P s -> P (snd (for_each f l s)).
Proof.
  intros Hf. induction l as [|a l IH]; intros s Hs; simpl; [exact Hs|].
  pose proof (Hf a s Hs) as Ha. destruct (f a s) as [b s1].
  pose proof (IH s1 Ha) as Hl. destruct (for_each f l s1) as [bs s2].
  exact Hl.
Qed.

Lemma later_state_refl reg : reachable reg -> later_state reg reg.
Proof. intros H. split; [exact H|auto]. Qed.

Lemma anonymizeText_later reg0 txt reg :
  later_state reg0 reg ->
  later_state reg0 (snd (anonymizeText ner RegExp txt reg)).
Proof.
  intros [Hr Hext]. split; [apply anonymizeText_reachable, Hr|].
  intros x q Hx. apply anonymizeText_preserves; [apply Hext, Hx|].
  apply (reachable_truthy reg x q Hr), Hext, Hx.
Qed.

Lemma anonymizeCell_later reg0 value reg :
  later_state reg0 reg ->
  later_state reg0 (snd (anonymizeCell ner RegExp value reg)).
Proof.
  intros H. destruct value as [s|tag]; simpl; [|exact H].
  pose proof (anonymizeText_later reg0 s reg H) as Hl.
  destruct (anonymizeText ner RegExp s reg). exact Hl.
Qed.

Lemma anonymizeWorkbook_later reg0 wb reg :
  later_state reg0 reg ->
  later_state reg0 (snd (anonymizeWorkbook ner RegExp wb reg)).
Proof.
  unfold anonymizeWorkbook.
  apply for_each_state. intros ws. apply for_each_state.
  intros rw. apply for_each_state. intros v.
  apply anonymizeCell_later.
Qed.

Lemma processFile_later filePath reg0 reg :
  later_state reg0 reg ->
  later_state reg0
    (snd (processFile extname toLowerCase readFileSync readWorkbook
            extractRawText pdfParse ner RegExp filePath reg)).
Proof.
  intros H. unfold processFile, useLLM.
  repeat case_bool_decide.
  - destruct (readFileSync filePath) as [content|]; [|exact H].
    pose proof (anonymizeText_later reg0 content reg H) as Hl.
    destruct (anonymizeText ner RegExp content reg). exact Hl.
  - destruct (readWorkbook filePath) as [wb|]; [|exact H].
    pose proof (anonymizeWorkbook_later reg0 wb reg H) as Hl.
    destruct (anonymizeWorkbook ner RegExp wb reg). exact Hl.
  - destruct (extractRawText filePath) as [t|]; [|exact H].
    pose proof (anonymizeText_later reg0 t reg H) as Hl.
    destruct (anonymizeText ner RegExp t reg). exact Hl.
  - destruct (pdfParse filePath) as [t|]; [|exact H].
    pose proof (anonymizeText_later reg0 t reg H) as Hl.
    destruct (anonymizeText ner RegExp t reg). exact Hl.
  - exact H.
Qed.

End FileProcessorFacts.

(** X13: the files [processFile] has no branch for.  A file whose
    lower-cased extension is none of .txt, .csv, .xlsx, .docx and .pdf is
    not anonymized: whatever the readers, the classifier and the engine,
    the promise settles on the copy alone, resolved when [fs.copyFileSync]
    succeeds and rejected when it throws, and the registry is left as it
    was.  .doc and .xls are such extensions, and both [validateFileType] and
    [addFile] accept them. *)
Theorem processFile_copies_what_it_has_no_branch_for
    (extname toLowerCase : jsstring -> jsstring)
    (readFileSync : jsstring -> option jsstring)
    (readWorkbook : jsstring -> option workbook)
    (extractRawText pdfParse : jsstring -> option jsstring)
    (writer : written -> bool)
    (ner : jsstring -> option (list prediction))
    (RegExp : jsstring -> option regex) (compiles : regex -> bool)
    (call_member : jsstring -> jsstring -> option jsstring)
    (file : fileObj) (reg : Js.registry) :
  (toLowerCase (extname (path file)) ∉ anonymizedTypes ->
   Js.processFile extname toLowerCase readFileSync readWorkbook
     extractRawText pdfParse writer ner RegExp compiles call_member
     (path file) reg
   = (if writer CopyFile then Resolved CopyFile else Rejected, reg))
  /\ (toLowerCase (extname (path file)) = u ".doc"
      \/ toLowerCase (extname (path file)) = u ".xls" ->
      validateFileType extname toLowerCase (path file) = true
      /\ addFile extname toLowerCase file [] = [file]
      /\ toLowerCase (extname (path file)) ∉ anonymizedTypes).
Proof.
  unfold validateFileType, addFile, Js.processFile, Js.write, useLLM.
  generalize (toLowerCase (extname (path file))). intros ext.
  split.
  - intros H. rewrite list_elem_of_In in H. simpl in H.
    repeat (case_bool_decide; [exfalso; intuition congruence|]).
    reflexivity.
  - intros [->| ->]; (split; [reflexivity|]); (split; [reflexivity|]);
      intros H;
      repeat (apply elem_of_cons in H as [H|H]; [discriminate H|]);
      inversion H.
Qed.

(** X15: the registry is never reset between files.  Whatever the file
    type and whether or not a reader fails, the registry [processFile]
    leaves is again one of a program run and holds every entry it held
    before, with the same pseudonym. *)
Theorem processFile_keeps_the_registry
    (extname toLowerCase : jsstring -> jsstring)
    (readFileSync : jsstring -> option jsstring)
    (readWorkbook : jsstring -> option workbook)
    (extractRawText pdfParse : jsstring -> option jsstring)
    (ner : jsstring -> option (list prediction))
    (RegExp : jsstring -> option regex)
    (filePath : jsstring) (reg : registry) :
  reachable reg ->
  reachable
    (snd (processFile extname toLowerCase readFileSync readWorkbook
            extractRawText pdfParse ner RegExp filePath reg))
  /\ forall x q,
       pseudonymMapping reg !! x = Some q ->
       pseudonymMapping
         (snd (processFile extname toLowerCase readFileSync readWorkbook
                 extractRawText pdfParse ner RegExp filePath reg)) !! x
       = Some q.
Proof.
  intros H. apply processFile_later, later_state_refl, H.
Qed.

(** A workbook of one sheet, read after [JohnSmith] has been resolved. *)
Lemma processFile_keeps_the_registry_witness :
  pseudonymMapping
    (snd (processFile (fun _ => u ".xlsx") (fun e => e)
            (fun _ => None)
            (fun _ => Some [[[CellString (u "London calling"); CellOther 0]]])
            (fun _ => None) (fun _ => None)
            (fun _ => Some [tok "London" "B-LOC"]) RegExp_ig
            (u "book.xlsx")
            (resolve_all [(u "JohnSmith", u "PER")] empty_registry)))
    !! u "JohnSmith"
  = Some (u "PER_1").
Proof.
  refine (proj2 (processFile_keeps_the_registry
                   (fun _ => u ".xlsx") (fun e => e) (fun _ => None)
                   (fun _ => Some [[[CellString (u "London calling");
                                     CellOther 0]]])
                   (fun _ => None) (fun _ => None)
                   (fun _ => Some [tok "London" "B-LOC"]) RegExp_ig
                   (u "book.xlsx")
                   (resolve_all [(u "JohnSmith", u "PER")] empty_registry) _)
            (u "JohnSmith") (u "PER_1") _).
  - exists [(u "JohnSmith", u "PER")]. reflexivity.
  - reflexivity.
Defined.

(** X16: the output name differs from the input name.  When the base name
    and the extension that [path] returns for a file name make up that name,
    [generateOutputFileName] returns the name with [-anon] put in before the
    extension, five code units longer and never equal to the name given. *)
Theorem generateOutputFileName_inserts_anon
    (extname : jsstring -> jsstring)
    (basename : jsstring -> jsstring -> jsstring)
    (originalName : jsstring) :
  basename originalName (extname originalName) ++ extname originalName
  = originalName ->
  generateOutputFileName extname basename originalName
  = basename originalName (extname originalName)
    ++ u "-anon" ++ extname originalName
  /\ length (generateOutputFileName extname basename originalName)
     = length originalName + 5
  /\ generateOutputFileName extname basename originalName <> originalName.
Proof.
  intros H. unfold generateOutputFileName.
  split; [reflexivity|].
  assert (L : length (basename originalName (extname originalName)
                      ++ u "-anon" ++ extname originalName)
              = length originalName + 5).
  { pose proof (f_equal length H) as HL. rewrite length_app in HL.
    rewrite !length_app. change (length (u "-anon")) with 5. lia. }
  split; [exact L|].
  intros E. rewrite E in L. lia.
Qed.

(** [letter.txt], with the base name and extension [path] gives for it. *)
Lemma generateOutputFileName_inserts_anon_witness :
  generateOutputFileName (fun _ => u ".txt") (fun _ _ => u "letter")
    (u "letter.txt")
  <> u "letter.txt".
Proof.
  refine (proj2 (proj2 (generateOutputFileName_inserts_anon
                          (fun _ => u ".txt") (fun _ _ => u "letter")
                          (u "letter.txt") _))).
  reflexivity.
Defined.

(** ** renderer.js *)

Section Renderer.

Variable extname : jsstring -> jsstring.
Variable toLowerCase : jsstring -> jsstring.

Implicit Types (f : fileObj) (sel files : list fileObj).

Lemma existsb_path f sel :
  existsb (fun g => bool_decide (path g = path f)) sel = true
  <-> path f ∈ map path sel.
Proof.
  rewrite existsb_exists, list_elem_of_In, in_map_iff.
  split; intros (g & H1 & H2); exists g.
  - apply bool_decide_eq_true in H2. auto.
  - rewrite bool_decide_eq_true. auto.
Qed.

(** [addFile] leaves the list as it is, or appends a file of a supported
    type whose path is new. *)
Lemma addFile_cases f sel :
  (addFile extname toLowerCase f sel = sel
   /\ (toLowerCase (extname (path f)) ∈ addFileTypes ->
       path f ∈ map path sel))
  \/ (addFile extname toLowerCase f sel = sel ++ [f]
      /\ toLowerCase (extname (path f)) ∈ addFileTypes
      /\ path f ∉ map path sel).
Proof.
  unfold addFile. case_bool_decide as Hext.
  - destruct (existsb _ sel) eqn:E.
    + left. split; [reflexivity|]. intros _. apply existsb_path, E.
    + right. repeat split; [exact Hext|].
      intros H. apply existsb_path in H. congruence.
  - left. split; [reflexivity|]. intros H. contradiction.
Qed.

Abbreviation clean := (clean_selection extname toLowerCase).

Lemma addFile_clean f sel :
  clean sel -> clean (addFile extname toLowerCase f sel).
Proof.
  intros [Hnd Hall].
  destruct (addFile_cases f sel) as [[-> _]|(-> & Hext & Hnew)];
    [split; assumption|].
  split.
  - rewrite map_app. apply NoDup_app. split; [exact Hnd|].
    split; [|apply NoDup_singleton].
    intros x Hx Hx'. apply list_elem_of_singleton in Hx'. subst x.
    contradiction.
  - apply Forall_app. split; [exact Hall|]. constructor; [|constructor].
    unfold validateFileType. apply bool_decide_eq_true. exact Hext.
Qed.

Lemma addFiles_clean files sel :
  clean sel -> clean (addFiles extname toLowerCase files sel).
Proof.
  revert sel. induction files as [|f files IH]; intros sel H; [exact H|].
  apply IH, addFile_clean, H.
Qed.

Lemma addFile_paths f g sel :
  path g ∈ map path sel ->
  path g ∈ map path (addFile extname toLowerCase f sel).
Proof.
  intros H. destruct (addFile_cases f sel) as [[-> _]|(-> & _)];
    [exact H|].
  rewrite map_app. apply elem_of_app. left. exact H.
Qed.

Lemma addFiles_paths files g sel :
  path g ∈ map path sel ->
  path g ∈ map path (addFiles extname toLowerCase files sel).
Proof.
  revert sel. induction files as [|f files IH]; intros sel H; [exact H|].
  apply IH, addFile_paths, H.
Qed.

Lemma addFile_present f sel :
  toLowerCase (extname (path f)) ∈ addFileTypes ->
  path f ∈ map path (addFile extname toLowerCase f sel).
Proof.
  intros Hext.
  destruct (addFile_cases f sel) as [[-> H]|(-> & _)]; [apply H, Hext|].
  rewrite map_app. apply elem_of_app. right. simpl. left.
Qed.

Lemma addFiles_offered files f : forall sel,
  In f files ->
  toLowerCase (extname (path f)) ∈ addFileTypes ->
  path f ∈ map path (addFiles extname toLowerCase files sel).
Proof.
  induction files as [|g files IH]; intros sel Hin Hext; [destruct Hin|].
  destruct Hin as [->|Hin].
  - apply (addFiles_paths files f), addFile_present, Hext.
  - apply IH; assumption.
Qed.

End Renderer.

(** X17: [selectedFiles] stays clean.  Whatever files are offered to
    [addFile], in whatever order, no two selected files have the same path,
    every selected file has a type [validateFileType] accepts, and offering
    any of the files again changes nothing. *)
Theorem addFile_keeps_selection_clean
    (extname toLowerCase : jsstring -> jsstring) (files : list fileObj) :
  NoDup (map path (addFiles extname toLowerCase files []))
  /\ Forall (fun g => validateFileType extname toLowerCase (path g) = true)
       (addFiles extname toLowerCase files [])
  /\ forall f,
       In f files ->
       addFile extname toLowerCase f (addFiles extname toLowerCase files [])
       = addFiles extname toLowerCase files [].
Proof.
  destruct (addFiles_clean extname toLowerCase files []) as [Hnd Hall].
  { split; constructor. }
  split; [exact Hnd|]. split; [exact Hall|].
  intros f Hin.
  destruct (addFile_cases extname toLowerCase f
              (addFiles extname toLowerCase files []))
    as [[E _]|(_ & Hext & Hnew)]; [exact E|].
  exfalso. apply Hnew. apply addFiles_offered; assumption.
Qed.

Section DailyLimit.

Implicit Types (files : list fileObj) (st : userState).

Lemma processFiles_loop_pro files st :
  isPro st = true -> processFiles_loop files st = (files, st).
Proof.
  intros H. induction files as [|f files IH]; simpl; [reflexivity|].
  rewrite H, IH. reflexivity.
Qed.

Lemma processFiles_loop_free files : forall st,
  isPro st = false ->
  (dailyCount st <= 100)%N ->
  fst (processFiles_loop files st)
  = take (N.to_nat (100 - dailyCount st)) files
  /\ dailyCount (snd (processFiles_loop files st))
     = (dailyCount st
        + N.min (N.of_nat (length files)) (101 - dailyCount st))%N.
Proof.
  induction files as [|f files IH]; intros st Hfree Hc.
  - simpl. rewrite take_nil. split; [reflexivity|lia].
  - cbn [processFiles_loop]. rewrite Hfree.
    cbn [negb dailyCount isPro deviceID dailyDate].
    destruct (100 <? dailyCount st + 1)%N eqn:E.
    + apply N.ltb_lt in E.
      replace (N.to_nat (100 - dailyCount st)) with 0 by lia.
      simpl. split; [reflexivity|lia].
    + apply N.ltb_ge in E. rename E into Hge.
      destruct (IH (UserState (deviceID st) false (dailyCount st + 1)
                      (dailyDate st)) eq_refl Hge) as [Hs Hn].
      destruct (processFiles_loop files _) as [sent st2]. simpl in *.
      replace (N.to_nat (100 - dailyCount st))
        with (S (N.to_nat (100 - (dailyCount st + 1)))) by lia.
      simpl. rewrite Hs, Hn. split; [reflexivity|lia].
Qed.

End DailyLimit.

(** X18: the daily limit of [processFiles].  A Pro user has every selected
    file handed to [process-file] and the user state untouched.  For a free
    user with a non-empty selection and [c] files counted today (after the
    daily reset), the files handed over are the first [100 - c] of the
    selection, none when [c] is 100 or more, so never more than 100 in a
    day; the counter stays at [c] when [c] is 100 or more, and otherwise
    ends at [c] plus the lesser of the number of files and [101 - c], at
    most one above the limit. *)
Theorem processFiles_daily_limit
    (today : jsstring) (selectedFiles : list fileObj) (st : userState) :
  (isPro st = true ->
   processFiles today selectedFiles st = (selectedFiles, st))
  /\ (isPro st = false ->
      selectedFiles <> [] ->
      fst (processFiles today selectedFiles st)
      = take (N.to_nat (100 - dailyCount (checkDailyReset today st)))
          selectedFiles
      /\ dailyCount (snd (processFiles today selectedFiles st))
         = (if (100 <=? dailyCount (checkDailyReset today st))%N
            then dailyCount (checkDailyReset today st)
            else (dailyCount (checkDailyReset today st)
                  + N.min (N.of_nat (length selectedFiles))
                      (101 - dailyCount (checkDailyReset today st)))%N)).
Proof.
  split.
  - intros H. unfold processFiles.
    destruct selectedFiles as [|f files]; [reflexivity|].
    rewrite H. apply processFiles_loop_pro, H.
  - intros H Hne. unfold processFiles.
    destruct selectedFiles as [|f files]; [congruence|].
    rewrite H. cbn [negb].
    assert (Hfree : isPro (checkDailyReset today st) = false).
    { unfold checkDailyReset. case_bool_decide; [exact H|exact H]. }
    destruct (N.leb_spec 100 (dailyCount (checkDailyReset today st)))
      as [Hle|Hlt].
    + replace (N.to_nat (100 - dailyCount (checkDailyReset today st)))
        with 0 by lia.
      split; reflexivity.
    + apply processFiles_loop_free; [exact Hfree|lia].
Qed.

Section SimpleHash.

Local Open Scope Z_scope.

Lemma ToInt32_range z : -2147483648 <= ToInt32 z < 2147483648.
Proof.
  unfold ToInt32.
  pose proof (Z.mod_pos_bound (z + 2147483648) 4294967296 eq_refl). lia.
Qed.

Lemma ToInt32_shift z k : ToInt32 (z + 4294967296 * k) = ToInt32 z.
Proof.
  unfold ToInt32. f_equal.
  replace (z + 4294967296 * k + 2147483648)
    with (z + 2147483648 + k * 4294967296) by lia.
  apply Z_mod_plus_full.
Qed.

Lemma ToInt32_wraps z : exists k, ToInt32 z = z + 4294967296 * k.
Proof.
  unfold ToInt32. exists (- ((z + 2147483648) / 4294967296)).
  rewrite (Z.mod_eq (z + 2147483648) 4294967296) by lia. lia.
Qed.

Lemma simpleHash_step_polynomial hash c :
  simpleHash_step hash c = ToInt32 (31 * hash + Z.of_N c).
Proof.
  unfold simpleHash_step.
  destruct (ToInt32_wraps hash) as [k1 E1].
  destruct (ToInt32_wraps (ToInt32 hash * 32)) as [k2 E2].
  rewrite E2, E1.
  replace ((hash + 4294967296 * k1) * 32 + 4294967296 * k2 - hash + Z.of_N c)
    with (31 * hash + Z.of_N c + 4294967296 * (32 * k1 + k2)) by lia.
  apply ToInt32_shift.
Qed.

Lemma simpleHash_fold (str : jsstring) :
  fold_left simpleHash_step str 0 = ToInt32 (polynomial31 str).
Proof.
  unfold polynomial31.
  induction str as [|c str IH] using rev_ind; [reflexivity|].
  rewrite !fold_left_app. cbn [fold_left].
  rewrite IH, simpleHash_step_polynomial.
  destruct (ToInt32_wraps
              (fold_left (fun h c0 => 31 * h + Z.of_N c0) str 0)) as [k E].
  rewrite E.
  replace (31 * (fold_left (fun h c0 => 31 * h + Z.of_N c0) str 0
                 + 4294967296 * k) + Z.of_N c)
    with (31 * fold_left (fun h c0 => 31 * h + Z.of_N c0) str 0 + Z.of_N c
          + 4294967296 * (31 * k)) by lia.
  apply ToInt32_shift.
Qed.

End SimpleHash.

(** X19: [simpleHash] is the polynomial hash with multiplier 31 over the
    code units of the string, reduced to a signed 32-bit integer and
    written in base 16. *)
Theorem simpleHash_is_polynomial31 (str : jsstring) :
  simpleHash str = toString16 (ToInt32 (polynomial31 str))
  /\ (-2147483648 <= ToInt32 (polynomial31 str) < 2147483648)%Z.
Proof.
  split; [|apply ToInt32_range].
  unfold simpleHash. rewrite simpleHash_fold. reflexivity.
Qed.
